(** * my_shell.c: a shallow embedding of the shell and its specification

    The C program keeps its command line in two fixed arrays of
    [MAX_NUM_CMDS] pointers ([args] in [main], [commands] in
    [handleMultipleCommands]) and talks to the operating system through
    [fork], [execvp], [wait], [fgets] and the standard streams.  The
    embedding keeps both: arrays are lists of optional tokens with checked
    stores, and every function that has an effect lives in a small monad
    that threads a trace of events and stops when the process is gone. *)

From Stdlib Require Import ZArith String Ascii.
From stdpp Require Import base tactics option list.

Local Open Scope string_scope.
Local Open Scope Z_scope.
Local Open Scope list_scope.

(** ** Constants of the source *)

Definition MAX_CMD_LENGTH : nat := 512.
Definition MAX_NUM_CMDS : nat := 20.
Definition EXIT_FAILURE : Z := 1.

(** ** C strings and pointer arrays *)

(** A token is a NUL-terminated C string; a [char *] is a [slot], with
    [None] for [NULL]; a [char *x[N]] is an [array] of [N] slots. *)
Abbreviation token := string (only parsing).
Abbreviation slot := (option string) (only parsing).
Abbreviation array := (list (option string)) (only parsing).

(** [strcmp]: only its sign matters to the callers, which test [== 0]. *)
Definition strcmp (a b : string) : Z :=
  match String.compare a b with
  | Eq => 0
  | Lt => -1
  | Gt => 1
  end.

(** [a[j] = v].  A store outside the array is undefined behaviour in C: the
    model reports it as [None] instead of inventing a result. *)
Definition store (a : array) (j : nat) (v : slot) : option array :=
  if decide (j < length a)%nat then Some (<[j := v]> a) else None.

(** The argument vector a reader sees behind a [char **]: the slots before
    the first [NULL].  [None] when no [NULL] lies inside the array (the
    reader would run off its end). *)
Fixpoint argv_of (a : array) : option (list token) :=
  match a with
  | [] => None
  | None :: _ => Some []
  | Some t :: r => cons t <$> argv_of r
  end.

(** An array of [MAX_NUM_CMDS] slots whose contents are whatever the
    function [g] says: this is how an uninitialised local array is given to
    the code. *)
Definition uninit (g : nat -> slot) : array := g <$> seq 0 MAX_NUM_CMDS.

(** ** The process and its environment *)

Inductive event : Type :=
| Printf (s : string)
| Perror (s : string)
| Fprintf_stderr (s : string)
| Fgets (r : option string)
| Fork (ret : Z)
| Execvp (file : slot) (argv : array)
| Wait
| Call_executeCommand (args : array)
| Call_executeBuiltinCommand (arg : token).

(** What the operating system and the stack hand to the process: the value
    returned by the n-th [fork], what the [execvp] that follows it does
    ([None]: the image is replaced and the call never returns), the
    contents found in [commands] when [handleMultipleCommands] is entered
    after n forks, the contents of [main]'s [args] at startup, and the
    result of the n-th [fgets] on standard input. *)
Record os : Type := {
  fork_ret : nat -> Z;
  execvp_ret : nat -> option Z;
  commands_garbage : nat -> nat -> slot;
  args_garbage : nat -> slot;
  fgets_ret : nat -> option string
}.

Record world : Type := {
  forks : nat;
  reads : nat;
  trace : list event
}.

Definition world0 : world := {| forks := 0; reads := 0; trace := [] |}.

(** How a process stops running the shell's code. *)
Inductive halt : Type :=
| Exit (status : Z)
| Replaced (file : slot) (argv : array)
| Undefined.

Inductive res (A : Type) : Type :=
| Ret (a : A) (w : world)
| Halt (h : halt) (w : world).
Arguments Ret {A} a w.
Arguments Halt {A} h w.

Definition M (A : Type) : Type := world -> res A.

#[global] Instance M_ret : MRet M := fun A a w => Ret a w.
#[global] Instance M_bind : MBind M := fun A B f m w =>
  match m w with
  | Ret a w' => f a w'
  | Halt h w' => Halt h w'
  end.

Definition final {A} (r : res A) : world :=
  match r with
  | Ret _ w => w
  | Halt _ w => w
  end.

Definition emit (e : event) : M unit := fun w =>
  Ret tt {| forks := forks w; reads := reads w; trace := trace w ++ [e] |}.

Definition stop {A} (h : halt) : M A := fun w => Halt h w.

(** A checked store lifted to the process: out of bounds is [Undefined]. *)
Definition store_m (a : array) (j : nat) (v : slot) : M array :=
  match store a j v with
  | Some a' => mret a'
  | None => stop Undefined
  end.

(** ** The tokenizer *)

(** The delimiter set [" \n\t"] handed to [strtok]. *)
Definition is_delim (c : ascii) : bool :=
  Ascii.eqb c " " || Ascii.eqb c (ascii_of_nat 10) || Ascii.eqb c (ascii_of_nat 9).

Fixpoint skip_delims (s : string) : string :=
  match s with
  | EmptyString => EmptyString
  | String c r => if is_delim c then skip_delims r else s
  end.

(** The token that starts at [s] and the text after the delimiter that
    ended it (the position [strtok] saves for its next call). *)
Fixpoint scan_token (s : string) : string * string :=
  match s with
  | EmptyString => (EmptyString, EmptyString)
  | String c r =>
      if is_delim c then (EmptyString, r)
      else let (t, rest) := scan_token r in (String c t, rest)
  end.

(** One call of [strtok] at position [s]: [None] is [NULL]; otherwise the
    token and the saved position. *)
Definition strtok (s : string) : option (token * string) :=
  match skip_delims s with
  | EmptyString => None
  | String c r => Some (scan_token (String c r))
  end.

Inductive filled : Type :=
| Done (args : array)
| OutOfBounds (j : nat)
| OutOfFuel.

(** The loop of [processInput] from the result of the first [strtok];
    [fuel] bounds the iterations and the length of the line is enough of
    it (see [processInput_loop_fuel]). *)
Fixpoint processInput_loop
    (fuel : nat) (tok : option (token * string)) (args : array) (j : nat)
    : filled :=
  match tok with
  | None =>
      match store args j None with
      | Some args' => Done args'
      | None => OutOfBounds j
      end
  | Some (t, rest) =>
      match fuel with
      | O => OutOfFuel
      | S fuel' =>
          match store args j (Some t) with
          | Some args' => processInput_loop fuel' (strtok rest) args' (S j)
          | None => OutOfBounds j
          end
      end
  end.

Definition processInput (line : string) (args : array) : filled :=
  processInput_loop (String.length line) (strtok line) args 0.

(** The tokens of a line, as successive calls of [strtok] return them. *)
Fixpoint tokens_loop (fuel : nat) (tok : option (token * string))
    : list token :=
  match tok, fuel with
  | Some (t, rest), S fuel' => t :: tokens_loop fuel' (strtok rest)
  | _, _ => []
  end.

Definition tokens (line : string) : list token :=
  tokens_loop (String.length line) (strtok line).

Section Shell.

Variable o : os.

(** *** System calls and library calls *)

Definition fork : M Z := fun w =>
  let pid := fork_ret o (forks w) in
  Ret pid {| forks := S (forks w); reads := reads w;
             trace := trace w ++ [Fork pid] |}.

(** [execvp] after the n-th fork; it returns only when it fails.  Its first
    argument must point to a string: with [NULL] (the argument vector of an
    empty group) the call has no defined behaviour, and in practice the
    child is killed inside it. *)
Definition execvp (file : slot) (argv : array) : M Z := fun w =>
  match file with
  | None => (emit (Execvp file argv) ;; stop Undefined) w
  | Some _ =>
      match execvp_ret o (pred (forks w)) with
      | None => (emit (Execvp file argv) ;; stop (Replaced file argv)) w
      | Some r => (emit (Execvp file argv) ;; mret r) w
      end
  end.

Definition wait : M unit := emit Wait.
Definition perror (s : string) : M unit := emit (Perror s).
Definition fprintf_stderr (s : string) : M unit := emit (Fprintf_stderr s).
Definition printf (s : string) : M unit := emit (Printf s).
(** [exit] ends the process that calls it.  On the way out it closes the
    stdio streams, and a child has copies of those of the shell: closing
    the one of the batch file moves the offset the child shares with the
    shell.  That is not an event of the process that exits; [child_exit]
    below gives the effect on the file, and [batch_shared] the loop of [main]
    that reads through it.  The trace records the calls of [printf], not
    the bytes that reach the descriptor, so output still pending in a
    buffer that a child writes out again is outside it. *)
Definition exit {A} (status : Z) : M A := stop (Exit status).

Definition fgets_stdin : M (option string) := fun w =>
  let r := fgets_ret o (reads w) in
  Ret r {| forks := forks w; reads := S (reads w);
           trace := trace w ++ [Fgets r] |}.

(** *** Built-in commands *)

Inductive BuiltinCmdFunction : Type := quitShell | displayAuthor.

Record BuiltinCmd : Type := {
  name : string;
  func : BuiltinCmdFunction
}.

Definition builtinCommands : list BuiltinCmd :=
  [ {| name := "quit"; func := quitShell |};
    {| name := "author"; func := displayAuthor |} ].

Definition numOfBuiltinCommands : nat := length builtinCommands.

Definition nl : string := String (ascii_of_nat 10) "".

Definition author_text : string :=
  (nl ++ "giannis-mel" ++ nl ++ "meleziadisgiannis@gmail.com" ++ nl ++ nl)%string.

Definition msg_terribly_wrong : string :=
  ("Error: Something is terribly wrong in my code." ++ nl)%string.

Definition msg_unrecognized : string :=
  ("Error: Unrecognized command type." ++ nl)%string.

Definition run_builtin (f : BuiltinCmdFunction) : M unit :=
  match f with
  | quitShell => exit 0
  | displayAuthor => printf author_text
  end.

(** *** executeCommand *)

Definition executeCommand (args : array) : M unit :=
  emit (Call_executeCommand args) ;;
  pid ← fork ;
  if pid =? 0 then
    r ← execvp (default None (args !! 0%nat)) args ;
    if r =? -1 then
      perror "Error executing command" ;; exit EXIT_FAILURE
    else mret tt
  else if 0 <? pid then wait
  else perror "Fork failed".

(** *** handleMultipleCommands *)

Definition is_null {A} (l : list A) : bool :=
  match l with
  | [] => true
  | _ :: _ => false
  end.

(** The [while] loop: [args] is what is left at [args + i] (so
    [args[i+1] == NULL] is [is_null rest]), [commands] and [j] are the
    locals. *)
Fixpoint handleMultipleCommands_loop
    (args : list token) (delimiter : token) (commands : array) (j : nat)
    : M unit :=
  match args with
  | [] => mret tt
  | a :: rest =>
      if (strcmp a delimiter =? 0) || is_null rest then
        commands' ← store_m commands j (if is_null rest then Some a else None) ;
        executeCommand commands' ;;
        handleMultipleCommands_loop rest delimiter commands' 0
      else
        commands' ← store_m commands j (Some a) ;
        handleMultipleCommands_loop rest delimiter commands' (S j)
  end.

Definition handleMultipleCommands (args : list token) (delimiter : token)
    : M unit := fun w =>
  handleMultipleCommands_loop args delimiter
    (uninit (commands_garbage o (forks w))) 0 w.

(** *** getCommandType, isBuiltin, executeBuiltinCommand *)

Fixpoint isBuiltin_loop (arg : token) (table : list BuiltinCmd) : Z :=
  match table with
  | [] => 0
  | b :: table' =>
      if strcmp arg (name b) =? 0 then 1 else isBuiltin_loop arg table'
  end.

Definition isBuiltin (arg : token) : Z := isBuiltin_loop arg builtinCommands.

Fixpoint getCommandType_loop (args : list token) : Z :=
  match args with
  | [] => 1
  | a :: rest =>
      if strcmp a "&&" =? 0 then 3
      else if strcmp a ";" =? 0 then 2
      else getCommandType_loop rest
  end.

Definition getCommandType (args : list token) : Z :=
  match args with
  | [] => 0
  | a0 :: rest =>
      if is_null rest && negb (isBuiltin a0 =? 0) then 4
      else getCommandType_loop args
  end.

Fixpoint executeBuiltinCommand_loop (arg : token) (table : list BuiltinCmd)
    : M unit :=
  match table with
  | [] => fprintf_stderr msg_terribly_wrong
  | b :: table' =>
      if strcmp arg (name b) =? 0 then run_builtin (func b)
      else executeBuiltinCommand_loop arg table'
  end.

Definition executeBuiltinCommand (arg : token) : M unit :=
  emit (Call_executeBuiltinCommand arg) ;;
  executeBuiltinCommand_loop arg builtinCommands.

(** *** processCommand *)

(** [args] is the array of [main]; the callees read it up to its [NULL]. *)
Definition processCommand (args : array) : M unit :=
  match argv_of args with
  | None => stop Undefined
  | Some toks =>
      match getCommandType toks with
      | 0 => mret tt
      | 1 => executeCommand args
      | 2 => handleMultipleCommands toks ";"
      | 3 => handleMultipleCommands toks "&&"
      | 4 => match toks with
             | a0 :: _ => executeBuiltinCommand a0
             | [] => stop Undefined
             end
      | _ => fprintf_stderr msg_unrecognized
      end
  end.

(** *** The interactive loop of main *)

Definition processInput_m (line : string) (args : array) : M array :=
  match processInput line args with
  | Done args' => mret args'
  | OutOfBounds _ | OutOfFuel => stop Undefined
  end.

(** One turn of [while (1)]: the prompt, the read, and on a successful read
    the tokenizer and the dispatcher.  [args] is [main]'s array, which
    keeps its contents from one turn to the next. *)
Definition interactive_body (args : array) : M array :=
  printf "myshell> " ;;
  r ← fgets_stdin ;
  match r with
  | None => mret args
  | Some line =>
      args' ← processInput_m line args ;
      processCommand args' ;;
      mret args'
  end.

(** The first [n] turns of the loop (it has no exit of its own). *)
Fixpoint interactive_loop (n : nat) (args : array) : M array :=
  match n with
  | O => mret args
  | S n' => args' ← interactive_body args ; interactive_loop n' args'
  end.

Definition main_interactive (n : nat) : res array :=
  interactive_loop n (uninit (args_garbage o)) world0.

(** *** Batch mode and main *)

(** [fclose]: the trace keeps no record of open streams, so closing one
    leaves it as it is. *)
Definition fclose : M unit := mret tt.

(** The batch loop [while (fgets(line, MAX_CMD_LENGTH, file))], given what
    the successive calls of [fgets] deliver before the one that returns
    [NULL].  [file] is that list of results, not the text of the file: a
    child that leaves through [exit] moves the offset it shares with the
    shell, so that lines of the file can be delivered more than once
    (see [batch_shared], which computes the results from the file). *)
Fixpoint batch_loop (file : list string) (args : array) : M array :=
  match file with
  | [] => emit (Fgets None) ;; mret args
  | line :: file' =>
      emit (Fgets (Some line)) ;;
      args' ← processInput_m line args ;
      processCommand args' ;;
      batch_loop file' args'
  end.

Definition usage_text : string :=
  ("Usage: ./my_shell or ./my_shell <batchfile>" ++ nl)%string.

(** [main]: [fopen_ret] is what [fopen(argv[1], "r")] gives when it is
    called ([None] for [NULL], and otherwise a stream, given by what its
    calls of [fgets] deliver), and [turns] is how many turns of the
    endless interactive loop are followed.  The result is [Some 0] when
    [main] returns 0 and [None] when the process is still in the
    interactive loop after [turns] turns. *)
Definition main (argc : Z) (fopen_ret : option (list string)) (turns : nat)
    : M (option Z) :=
  if argc =? 1 then
    interactive_loop turns (uninit (args_garbage o)) ;; mret None
  else
    match (if argc =? 2 then fopen_ret else None) with
    | Some file =>
        batch_loop file (uninit (args_garbage o)) ;;
        fclose ;;
        mret (Some 0)
    | None =>
        printf usage_text ;; mret (Some 0)
    end.

End Shell.

(** ** Reading a trace *)

(** The arrays [executeCommand] was entered with, in order. *)
Definition invocations (tr : list event) : list array :=
  omap (fun e => match e with Call_executeCommand a => Some a | _ => None end) tr.


(** The process whose code we follow is the shell itself when no [fork]
    ever answers 0 to it (0 is what the child sees). *)
Definition parent (o : os) : Prop := forall n, fork_ret o n <> 0.

(** What the parent does after [fork] returned [pid <> 0]. *)
Definition parent_tail (pid : Z) : event :=
  if 0 <? pid then Wait else Perror "Fork failed".

(** The arrays the loop of [handleMultipleCommands] hands to
    [executeCommand] when every call of it returns. *)
Fixpoint loop_calls
    (args : list token) (delimiter : token) (commands : array) (j : nat)
    : list array :=
  match args with
  | [] => []
  | a :: rest =>
      if (strcmp a delimiter =? 0) || is_null rest then
        match store commands j (if is_null rest then Some a else None) with
        | Some commands' => commands' :: loop_calls rest delimiter commands' 0
        | None => []
        end
      else
        match store commands j (Some a) with
        | Some commands' => loop_calls rest delimiter commands' (S j)
        | None => []
        end
  end.

(** Sample environments: every [fork] answers [pid], [execvp] fails in a
    child, and every uninitialised slot holds [NULL]. *)
Definition os_with (pid : Z) (input : nat -> option string) : os := {|
  fork_ret := fun _ => pid;
  execvp_ret := fun _ => Some (-1);
  commands_garbage := fun _ _ => None;
  args_garbage := fun _ => None;
  fgets_ret := input
|}.

(** The shell process with pid 7 for every child. *)
Definition os_sample (input : nat -> option string) : os := os_with 7 input.

(** The array of [main] after a line with tokens [toks] was stored in it. *)
Definition args_of (toks : list token) : array :=
  take MAX_NUM_CMDS ((Some <$> toks) ++ replicate MAX_NUM_CMDS None).

(** The argument vectors the executor receives, in order, when the shell
    process splits [args] on [delimiter] ([None] for a vector with no
    terminator inside the array). *)
Definition executed (o : os) (args : list token) (delimiter : token)
    : list (option (list token)) :=
  argv_of <$>
    invocations (trace (final (handleMultipleCommands o args delimiter world0))).

(** The invariant of the data model, as the specification words it: no
    vector passed to the executor contains [;] or [&&]. *)
Definition no_delimiter_passed (o : os) (args : list token) (delimiter : token)
    : Prop :=
  forall l, Some l ∈ executed o args delimiter -> (";" ∉ l) /\ ("&&" ∉ l).

(** The five shapes of the specification and the integers
    [getCommandType] returns for them. *)
Inductive classification : Type :=
| Empty | Simple | SequentialGroup | ConditionalGroup | Builtin.

Definition classification_of (code : Z) : option classification :=
  match code with
  | 0 => Some Empty
  | 1 => Some Simple
  | 2 => Some SequentialGroup
  | 3 => Some ConditionalGroup
  | 4 => Some Builtin
  | _ => None
  end.

Definition classify (args : list token) : option classification :=
  classification_of (getCommandType args).

(** The line of the specification's refinement claim: every [&&] token
    replaced by [;]. *)
Definition replace_conditional (args : list token) : list token :=
  (fun a => if strcmp a "&&" =? 0 then ";" else a) <$> args.

(** The argument vectors the executor receives while [processCommand] runs
    on the array [args]. *)
Definition dispatched (o : os) (args : array) : list (option (list token)) :=
  argv_of <$> invocations (trace (final (processCommand o args world0))).

(** A line of twenty one-letter tokens: 39 characters, well inside the
    [MAX_CMD_LENGTH] characters [fgets] may deliver. *)
Definition twenty_tokens : string :=
  "a a a a a a a a a a a a a a a a a a a a".

(** The world after the prompt and the read of one turn. *)
Definition prompted (o : os) (w : world) : world :=
  {| forks := forks w; reads := S (reads w);
     trace := trace w ++ [Printf "myshell> "; Fgets (fgets_ret o (reads w))] |}.

(** ** Vocabulary for the properties of the whole program *)

(** A string with a character of the tokenizer's delimiter set in it. *)
Fixpoint has_delim (s : string) : bool :=
  match s with
  | EmptyString => false
  | String c r => is_delim c || has_delim r
  end.

(** A string made of delimiter characters only. *)
Fixpoint blank (s : string) : bool :=
  match s with
  | EmptyString => true
  | String c r => is_delim c && blank r
  end.

(** A well-formed token: not empty, no delimiter character. *)
Definition clean (t : token) : Prop := t <> EmptyString /\ has_delim t = false.

(** Tokens written on one line with one space between them. *)
Fixpoint join (ts : list token) : string :=
  match ts with
  | [] => EmptyString
  | [t] => t
  | t :: rest => (t ++ String " "%char (join rest))%string
  end.

(** The groups of a token list cut at every [d]; [acc] is the group under
    way, and the result always has a last group (possibly empty). *)
Fixpoint split_on (d : token) (acc : list token) (args : list token)
    : list (list token) :=
  match args with
  | [] => [acc]
  | a :: rest =>
      if strcmp a d =? 0 then acc :: split_on d [] rest
      else split_on d (acc ++ [a]) rest
  end.

(** [execvp] behaves as POSIX says: when it returns, it returns -1. *)
Definition posix (o : os) : Prop :=
  forall n r, execvp_ret o n = Some r -> r = -1.

(** The values [fork] returned, the results of [fgets], and the messages
    written with [fprintf(stderr, ...)], as a trace shows them. *)
Definition fork_rets (tr : list event) : list Z :=
  omap (fun e => match e with Fork z => Some z | _ => None end) tr.

Definition fgets_results (tr : list event) : list (option string) :=
  omap (fun e => match e with Fgets r => Some r | _ => None end) tr.

Definition internal_errors (tr : list event) : list string :=
  omap (fun e => match e with Fprintf_stderr s => Some s | _ => None end) tr.

(** The events a computation adds to the trace all satisfy [P]. *)
Definition emits {A} (P : event -> Prop) (m : M A) : Prop :=
  forall w, exists new, trace (final (m w)) = trace w ++ new /\ Forall P new.

(** The events of running a command: everything but reads of input and
    [fprintf(stderr, ...)]. *)
Definition command_event (e : event) : Prop :=
  match e with
  | Fgets _ | Fprintf_stderr _ => False
  | _ => True
  end.

(** A trace in which [fork] never answered 0: the trace of a process that
    has not been a child so far. *)
Definition no_child (tr : list event) : Prop :=
  Forall (fun z => z <> 0) (fork_rets tr).

(** A computation that, when it returns, has not turned the process into a
    child. *)
Definition keeps_parent {A} (m : M A) : Prop :=
  forall w a w', m w = Ret a w' -> no_child (trace w) -> no_child (trace w').

(** A line the tokenizer can store in [args] and that is not the [quit]
    command. *)
Definition line_ok (line : string) : Prop :=
  (length (tokens line) < MAX_NUM_CMDS)%nat /\ tokens line <> ["quit"].

(** ** The classifier with its lookups *)

(** [getCommandType] once more, with the arguments it calls [isBuiltin]
    with: the test [args[1] == NULL && isBuiltin(args[0])] reaches
    [isBuiltin] exactly when the line has one token. *)
Definition getCommandType_traced (args : list token) : Z * list token :=
  match args with
  | [] => (0, [])
  | a0 :: rest =>
      if is_null rest then
        (if negb (isBuiltin a0 =? 0) then 4 else getCommandType_loop args, [a0])
      else (getCommandType_loop args, [])
  end.

(** ** The run of the splitter in the shell process *)

(** What the shell process does for the arrays [calls], one after the
    other from its [n]-th fork on: enter [executeCommand], fork, and wait
    for the child (or report the failed fork). *)
Fixpoint launches (o : os) (n : nat) (calls : list array) : list event :=
  match calls with
  | [] => []
  | c :: cs =>
      [Call_executeCommand c; Fork (fork_ret o n); parent_tail (fork_ret o n)]
      ++ launches o (S n) cs
  end.

(** ** The batch file as the shell and its children share it *)

(** The file behind the stream of batch mode: its text, the offset of the
    open file description (one offset for the shell and all its children,
    which inherit the descriptor), and the characters the shell's stream
    has read ahead of what [fgets] delivered. *)
Record shared_file : Type := {
  content : string;
  offset : nat;
  unread : string
}.

(** The first line of [s] as [fgets] cuts it: up to and including the first
    newline, and never more than [n] characters; [None] when [s] ends
    before either. *)
Fixpoint line_of (n : nat) (s : string) : option (string * string) :=
  match n with
  | O => Some (EmptyString, s)
  | S n' =>
      match s with
      | EmptyString => None
      | String c r =>
          if Ascii.eqb c (ascii_of_nat 10) then Some (String c EmptyString, r)
          else
            match line_of n' r with
            | Some (l, rest) => Some (String c l, rest)
            | None => None
            end
      end
  end.

(** [read(fd, buffer, bufsiz)]: the next characters of the file at the
    shared offset, which moves past them. *)
Definition read_fd (bufsiz : nat) (f : shared_file) : string * shared_file :=
  let chunk := substring (offset f) bufsiz (content f) in
  (chunk,
   {| content := content f; offset := offset f + String.length chunk;
      unread := unread f |}).

(** [fgets(line, MAX_CMD_LENGTH, file)] on the stream: a line is cut from
    the characters read ahead, after refilling them from the descriptor as
    often as needed; at the end of the file what is left is delivered, or
    [NULL] when nothing is left.  The outer [None] is for fuel that ran out,
    which [MAX_CMD_LENGTH] refills never do (see [fgets_file_fuel]). *)
Fixpoint fgets_file (fuel bufsiz : nat) (f : shared_file)
    : option (option string * shared_file) :=
  match line_of (pred MAX_CMD_LENGTH) (unread f) with
  | Some (l, rest) =>
      Some (Some l, {| content := content f; offset := offset f; unread := rest |})
  | None =>
      match fuel with
      | O => None
      | S fuel' =>
          let (chunk, f') := read_fd bufsiz f in
          match chunk with
          | EmptyString =>
              Some (match unread f with
                    | EmptyString => None
                    | String _ _ => Some (unread f)
                    end,
                    {| content := content f; offset := offset f';
                       unread := EmptyString |})
          | String _ _ =>
              fgets_file fuel' bufsiz
                {| content := content f; offset := offset f';
                   unread := (unread f ++ chunk)%string |}
          end
      end
  end.

(** What [exit] in a child does to the file: the child holds a copy of the
    stream, and closing a stream that has characters read ahead seeks the
    descriptor back by their number ([lseek(fd, -unread, SEEK_CUR)]), on
    the offset the shell shares.  A seek before the start of the file
    fails and changes nothing. *)
Definition child_exit (f : shared_file) : shared_file :=
  if Nat.leb (String.length (unread f)) (offset f) then
    {| content := content f;
       offset := offset f - String.length (unread f);
       unread := unread f |}
  else f.

(** The effect on the file of the children made by the calls [calls] of
    [executeCommand], the first at fork [n]: a child exists when [fork]
    gave the shell a pid; it leaves through [exit(EXIT_FAILURE)] when its
    [execvp] returns -1, and never gets to [exit] when its program is
    [NULL] or is found. *)
Fixpoint children_exit (o : os) (n : nat) (calls : list array)
    (f : shared_file) : shared_file :=
  match calls with
  | [] => f
  | args :: calls' =>
      children_exit o (S n) calls'
        (if 0 <? fork_ret o n then
           match default None (args !! 0%nat), execvp_ret o n with
           | Some _, Some r => if r =? -1 then child_exit f else f
           | _, _ => f
           end
         else f)
  end.

Definition forks_now : M nat := fun w => Ret (forks w) w.

Definition calls_now : M (list array) := fun w => Ret (invocations (trace w)) w.

(** The batch branch of [main] in the shell process, reading the file
    through the stream: [turns] bounds the turns of the loop that are
    followed ([None]: the loop is still running after them, [Some 0]:
    [main] returned 0), [bufsiz] is the size of the stream's buffer. *)
Fixpoint batch_shared (o : os) (turns bufsiz : nat) (f : shared_file)
    (args : array) : M (option Z) :=
  match turns with
  | O => mret None
  | S turns' =>
      match fgets_file MAX_CMD_LENGTH bufsiz f with
      | None => stop Undefined
      | Some (r, f1) =>
          emit (Fgets r) ;;
          match r with
          | None => fclose ;; mret (Some 0)
          | Some line =>
              args' ← processInput_m line args ;
              n0 ← forks_now ;
              c0 ← calls_now ;
              processCommand o args' ;;
              c1 ← calls_now ;
              batch_shared o turns' bufsiz
                (children_exit o n0 (drop (length c0) c1) f1) args'
          end
      end
  end.

Definition batch_run (o : os) (turns bufsiz : nat) (text : string)
    : res (option Z) :=
  batch_shared o turns bufsiz
    {| content := text; offset := 0; unread := EmptyString |}
    (uninit (args_garbage o)) world0.

(** Environments of the shell process that differ only in the children:
    every [fork] gives pid 7, and the child of the [n]-th fork finds its
    program exactly when [found n]. *)
Definition os_children (found : nat -> bool) : os := {|
  fork_ret := fun _ => 7;
  execvp_ret := fun n => if found n then None else Some (-1);
  commands_garbage := fun _ _ => None;
  args_garbage := fun _ => None;
  fgets_ret := fun _ => None
|}.

(** A batch file of two lines. *)
Definition two_lines : string :=
  ("prog" ++ nl ++ "echo hi" ++ nl)%string.

(** The lines of a text file: a line ends with its newline, has no other,
    and fits the buffer [line] of [main] with its terminator. *)
Fixpoint has_newline (s : string) : bool :=
  match s with
  | EmptyString => false
  | String c r => Ascii.eqb c (ascii_of_nat 10) || has_newline r
  end.





(** ** Basic facts *)

Lemma compare_same (a : string) : String.compare a a = Eq.
Proof.
  induction a as [|c a IH]; simpl; [reflexivity|].
  unfold Ascii.compare. rewrite N.compare_refl. exact IH.
Qed.

Lemma strcmp_eq (a b : string) : (strcmp a b =? 0) = true <-> a = b.
Proof.
  unfold strcmp. split.
  - intros H. apply String.compare_eq_iff.
    destruct (String.compare a b); [reflexivity|discriminate|discriminate].
  - intros ->. rewrite compare_same. reflexivity.
Qed.

Lemma strcmp_refl (a : string) : (strcmp a a =? 0) = true.
Proof. now apply strcmp_eq. Qed.

Lemma strcmp_ne (a b : string) : a <> b -> (strcmp a b =? 0) = false.
Proof.
  intros H. destruct (strcmp a b =? 0) eqn:E; [|reflexivity].
  apply strcmp_eq in E. contradiction.
Qed.

Lemma invocations_app (t1 t2 : list event) :
  invocations (t1 ++ t2) = invocations t1 ++ invocations t2.
Proof. apply omap_app. Qed.


Lemma store_Some (a a' : array) (j : nat) (v : slot) :
  store a j v = Some a' -> (j < length a)%nat /\ a' = <[j := v]> a.
Proof.
  unfold store. case_decide; [|discriminate].
  intros [= <-]. split; [assumption|reflexivity].
Qed.

(** ** executeCommand *)

Lemma executeCommand_parent (o : os) (args : array) (w : world) :
  fork_ret o (forks w) <> 0 ->
  executeCommand o args w =
    Ret tt {| forks := S (forks w); reads := reads w;
              trace := trace w ++
                [Call_executeCommand args; Fork (fork_ret o (forks w));
                 parent_tail (fork_ret o (forks w))] |}.
Proof.
  intros Hpid. unfold executeCommand, mbind, M_bind, emit, fork, parent_tail.
  simpl. apply Z.eqb_neq in Hpid. rewrite Hpid.
  destruct (0 <? fork_ret o (forks w));
    unfold wait, perror, emit; simpl;
    repeat rewrite <- app_assoc; reflexivity.
Qed.


(** ** The loop of handleMultipleCommands in the shell process *)

Lemma invocations_call (a : array) (pid : Z) :
  invocations [Call_executeCommand a; Fork pid; parent_tail pid] = [a].
Proof. unfold parent_tail. destruct (0 <? pid); reflexivity. Qed.

Lemma loop_parent (o : os) (delimiter : token) (args : list token) :
  parent o ->
  forall (commands : array) (j : nat) (w : world),
  exists w',
    (handleMultipleCommands_loop o args delimiter commands j w = Ret tt w' \/
     handleMultipleCommands_loop o args delimiter commands j w = Halt Undefined w') /\
    reads w' = reads w /\
    invocations (trace w') =
      invocations (trace w) ++ loop_calls args delimiter commands j.
Proof.
  intros Hp. induction args as [|a rest IH]; intros commands j w.
  - exists w. simpl. rewrite app_nil_r. auto.
  - simpl. unfold mbind, M_bind, store_m.
    destruct ((strcmp a delimiter =? 0) || is_null rest).
    + destruct (store commands j _) as [c'|]; unfold mret, M_ret, stop.
      * rewrite executeCommand_parent by apply Hp.
        match goal with |- context [handleMultipleCommands_loop _ _ _ _ _ ?w1] =>
          destruct (IH c' 0%nat w1) as (w' & Hr & Hreads & Hinv) end.
        exists w'. split; [exact Hr|]. split; [exact Hreads|].
        rewrite Hinv. simpl. rewrite invocations_app, invocations_call.
        rewrite <- app_assoc. reflexivity.
      * exists w. rewrite app_nil_r. auto.
    + destruct (store commands j _) as [c'|]; unfold mret, M_ret, stop.
      * apply IH.
      * exists w. rewrite app_nil_r. auto.
Qed.

Lemma handleMultipleCommands_parent (o : os) (args : list token) (delimiter : token) :
  parent o ->
  invocations (trace (final (handleMultipleCommands o args delimiter world0))) =
  loop_calls args delimiter (uninit (commands_garbage o 0)) 0.
Proof.
  intros Hp. unfold handleMultipleCommands.
  destruct (loop_parent o delimiter args Hp
              (uninit (commands_garbage o (forks world0))) 0%nat world0)
    as (w' & [Hr|Hr] & _ & Hinv); rewrite Hr; simpl; exact Hinv.
Qed.

(** ** What the splitter hands to the executor *)

Lemma uninit_lookup (g : nat -> slot) (i : nat) (s : slot) :
  uninit g !! i = Some s -> s = g i.
Proof.
  unfold uninit. rewrite list_lookup_fmap.
  destruct (seq 0 MAX_NUM_CMDS !! i) as [k|] eqn:E; simpl; [|discriminate].
  apply lookup_seq in E as [-> _]. intros [= <-]. reflexivity.
Qed.

Lemma insert_lookup_other (c : array) (j i : nat) (v s : slot) :
  <[j := v]> c !! i = Some s -> s <> v -> c !! i = Some s.
Proof.
  intros H Hne. destruct (decide (j = i)) as [->|Hji].
  - destruct (decide (i < length c)%nat) as [Hlt|Hge].
    + rewrite list_lookup_insert_eq in H by exact Hlt.
      injection H as <-. contradiction.
    + rewrite list_insert_ge in H by lia. exact H.
  - rewrite list_lookup_insert_ne in H by exact Hji. exact H.
Qed.

Lemma last_cons_cons {A} (a b : A) (l : list A) :
  last (a :: b :: l) = last (b :: l).
Proof. reflexivity. Qed.

(** The chosen delimiter is never stored by the loop, unless it is the
    last token of the line: a slot that holds it was never written. *)
Lemma loop_calls_delimiter (g : nat -> slot) (d : token) (args : list token) :
  last args <> Some d ->
  forall (c : array) (j : nat),
  (forall i, c !! i = Some (Some d) -> g i = Some d) ->
  Forall (fun a : array => forall i, a !! i = Some (Some d) -> g i = Some d)
         (loop_calls args d c j).
Proof.
  induction args as [|a rest IH]; intros Hlast c j Hc; simpl.
  - constructor.
  - assert (Hrest : rest <> [] -> last rest <> Some d).
    { destruct rest as [|b rest']; [congruence|]. intros _.
      rewrite last_cons_cons in Hlast. exact Hlast. }
    destruct (strcmp a d =? 0) eqn:Ead; simpl.
    + apply strcmp_eq in Ead. subst a.
      destruct rest as [|b rest']; [simpl in Hlast; congruence|]. simpl.
      destruct (store c j None) as [c'|] eqn:Es; [|constructor].
      apply store_Some in Es as [_ ->].
      assert (Hc' : forall i, <[j:=None]> c !! i = Some (Some d) -> g i = Some d).
      { intros i Hi. apply Hc. eapply insert_lookup_other; [exact Hi|discriminate]. }
      constructor; [exact Hc'|]. apply IH; [apply Hrest; discriminate|exact Hc'].
    + assert (Hne : a <> d).
      { intros ->. rewrite strcmp_refl in Ead. discriminate. }
      destruct rest as [|b rest']; simpl.
      * destruct (store c j (Some a)) as [c'|] eqn:Es; [|constructor].
        apply store_Some in Es as [_ ->].
        constructor; [|constructor].
        intros i Hi. apply Hc. eapply insert_lookup_other; [exact Hi|congruence].
      * destruct (store c j (Some a)) as [c'|] eqn:Es; [|constructor].
        apply store_Some in Es as [_ ->].
        apply IH; [apply Hrest; discriminate|].
        intros i Hi. apply Hc. eapply insert_lookup_other; [exact Hi|congruence].
Qed.

Lemma argv_of_lookup (a : array) (l : list token) (t : token) :
  argv_of a = Some l -> t ∈ l -> exists i, a !! i = Some (Some t).
Proof.
  revert l. induction a as [|s a IH]; intros l; simpl; [discriminate|].
  destruct s as [u|].
  - destruct (argv_of a) as [l'|]; simpl; [|discriminate].
    intros [= <-] Hin. apply elem_of_cons in Hin as [->|Hin].
    + exists 0%nat. reflexivity.
    + destruct (IH l' eq_refl Hin) as [i Hi]. exists (S i). exact Hi.
  - intros [= <-] Hin. apply elem_of_nil in Hin. contradiction.
Qed.

(** C8. Splitting [echo a ; echo b ; echo c] on [;] calls the executor
    exactly three times, in order, with [echo a], [echo b] and [echo c],
    whatever the stack held in [commands] before. *)
Theorem split_three_echo_groups (o : os) :
  parent o ->
  executed o ["echo"; "a"; ";"; "echo"; "b"; ";"; "echo"; "c"] ";" =
    [Some ["echo"; "a"]; Some ["echo"; "b"]; Some ["echo"; "c"]].
Proof.
  intros Hp. unfold executed.
  rewrite handleMultipleCommands_parent by exact Hp.
  generalize (commands_garbage o 0). intros g.
  vm_compute. reflexivity.
Qed.

Lemma split_three_echo_groups_witness :
  parent (os_sample (fun _ => None)) /\
  executed (os_sample (fun _ => None))
    ["echo"; "a"; ";"; "echo"; "b"; ";"; "echo"; "c"] ";" =
    [Some ["echo"; "a"]; Some ["echo"; "b"]; Some ["echo"; "c"]].
Proof.
  split.
  - intros n. simpl. discriminate.
  - apply (split_three_echo_groups (os_sample (fun _ => None))).
    intros n. simpl. discriminate.
Defined.

(** C1. The last group is stored without a terminator, so it runs with
    whatever follows it in [commands]: on [echo a b c ; echo d] the second
    call receives [echo d b c], the tail of the first group, instead of
    [echo d]. *)
Theorem last_group_keeps_earlier_tokens (o : os) :
  parent o ->
  executed o ["echo"; "a"; "b"; "c"; ";"; "echo"; "d"] ";" =
    [Some ["echo"; "a"; "b"; "c"]; Some ["echo"; "d"; "b"; "c"]].
Proof.
  intros Hp. unfold executed.
  rewrite handleMultipleCommands_parent by exact Hp.
  generalize (commands_garbage o 0). intros g.
  vm_compute. reflexivity.
Qed.

Lemma last_group_keeps_earlier_tokens_witness :
  parent (os_sample (fun _ => None)) /\
  executed (os_sample (fun _ => None))
    ["echo"; "a"; "b"; "c"; ";"; "echo"; "d"] ";" =
    [Some ["echo"; "a"; "b"; "c"]; Some ["echo"; "d"; "b"; "c"]].
Proof.
  split.
  - intros n. simpl. discriminate.
  - apply (last_group_keeps_earlier_tokens (os_sample (fun _ => None))).
    intros n. simpl. discriminate.
Defined.

(** C4. An empty group is executed all the same: on [ls ; ; pwd] the
    executor is called three times, the second time with an empty argument
    vector, and on [; ls] its first call has an empty argument vector. *)
Theorem empty_group_is_executed (o : os) :
  parent o ->
  getCommandType ["ls"; ";"; ";"; "pwd"] = 2 /\
  executed o ["ls"; ";"; ";"; "pwd"] ";" = [Some ["ls"]; Some []; Some ["pwd"]] /\
  getCommandType [";"; "ls"] = 2 /\
  head (executed o [";"; "ls"] ";") = Some (Some []).
Proof.
  intros Hp. unfold executed.
  rewrite !handleMultipleCommands_parent by exact Hp.
  generalize (commands_garbage o 0). intros g.
  vm_compute. repeat split; reflexivity.
Qed.

Lemma empty_group_is_executed_witness :
  parent (os_sample (fun _ => None)) /\
  executed (os_sample (fun _ => None)) ["ls"; ";"; ";"; "pwd"] ";" =
    [Some ["ls"]; Some []; Some ["pwd"]].
Proof.
  split.
  - intros n. simpl. discriminate.
  - apply (empty_group_is_executed (os_sample (fun _ => None))).
    intros n. simpl. discriminate.
Defined.

(** C2, as amended. When the line does not end with the chosen delimiter,
    the splitter never stores that delimiter: in every array it passes to
    the executor, a slot holding the delimiter is a slot it never wrote,
    still holding what the stack held.  So when the stack held no such
    token, no vector passed to the executor contains the chosen
    delimiter. *)
Theorem chosen_delimiter_never_stored
    (o : os) (args : list token) (delimiter : token) :
  parent o ->
  last args <> Some delimiter ->
  Forall (fun a : array =>
            forall i, a !! i = Some (Some delimiter) ->
                      commands_garbage o 0 i = Some delimiter)
         (invocations
            (trace (final (handleMultipleCommands o args delimiter world0)))) /\
  ((forall i, commands_garbage o 0 i <> Some delimiter) ->
   forall l, Some l ∈ executed o args delimiter -> delimiter ∉ l).
Proof.
  intros Hp Hlast.
  assert (HF : Forall (fun a : array =>
            forall i, a !! i = Some (Some delimiter) ->
                      commands_garbage o 0 i = Some delimiter)
         (invocations
            (trace (final (handleMultipleCommands o args delimiter world0))))).
  { rewrite handleMultipleCommands_parent by exact Hp.
    apply loop_calls_delimiter; [exact Hlast|].
    intros i Hi. apply uninit_lookup in Hi. symmetry. exact Hi. }
  split; [exact HF|].
  intros Hg l Hl Hin. unfold executed in Hl.
  apply list_elem_of_fmap in Hl as (a & Ha & Hina).
  rewrite Forall_forall in HF. specialize (HF a Hina).
  destruct (argv_of_lookup a l delimiter (eq_sym Ha) Hin) as [i Hi].
  exact (Hg i (HF i Hi)).
Qed.

Lemma chosen_delimiter_never_stored_witness :
  parent (os_sample (fun _ => None)) /\
  last ["ls"; ";"; "pwd"] <> Some ";" /\
  (forall l, Some l ∈ executed (os_sample (fun _ => None)) ["ls"; ";"; "pwd"] ";" ->
             ";" ∉ l).
Proof.
  split; [intros n; simpl; discriminate|].
  split; [simpl; discriminate|].
  apply (chosen_delimiter_never_stored (os_sample (fun _ => None))
           ["ls"; ";"; "pwd"] ";").
  - intros n. simpl. discriminate.
  - simpl. discriminate.
  - intros i. simpl. discriminate.
Defined.

(** C2, as stated, fails: splitting [a ; b && c] on [;] passes the vector
    [b && c], which contains [&&], to the executor. *)
Lemma other_delimiter_is_passed :
  exists l,
    Some l ∈ executed (os_sample (fun _ => None)) ["a"; ";"; "b"; "&&"; "c"] ";" /\
    "&&" ∈ l /\
    (no_delimiter_passed (os_sample (fun _ => None))
       ["a"; ";"; "b"; "&&"; "c"] ";" -> False).
Proof.
  assert (E : executed (os_sample (fun _ => None))
                ["a"; ";"; "b"; "&&"; "c"] ";" =
              [Some ["a"]; Some ["b"; "&&"; "c"]]) by (vm_compute; reflexivity).
  assert (Hin : Some ["b"; "&&"; "c"] ∈
                executed (os_sample (fun _ => None)) ["a"; ";"; "b"; "&&"; "c"] ";").
  { rewrite E. apply elem_of_cons. right. apply elem_of_cons. left. reflexivity. }
  assert (Hand : "&&" ∈ ["b"; "&&"; "c"]).
  { apply elem_of_cons. right. apply elem_of_cons. left. reflexivity. }
  exists ["b"; "&&"; "c"]. split; [exact Hin|]. split; [exact Hand|].
  intros H. destruct (H _ Hin) as [_ Hno]. exact (Hno Hand).
Qed.

(** ** The classifier *)

Lemma isBuiltin_spec (a : token) :
  (isBuiltin a =? 0) = false <-> a = "quit" \/ a = "author".
Proof.
  unfold isBuiltin, builtinCommands. simpl.
  destruct (strcmp a "quit" =? 0) eqn:Eq.
  - apply strcmp_eq in Eq. split; [auto|reflexivity].
  - destruct (strcmp a "author" =? 0) eqn:Ea.
    + apply strcmp_eq in Ea. split; [auto|reflexivity].
    + split; [discriminate|]. intros [->| ->].
      * rewrite strcmp_refl in Eq. discriminate.
      * rewrite strcmp_refl in Ea. discriminate.
Qed.

Lemma getCommandType_loop_range (args : list token) :
  getCommandType_loop args = 1 \/ getCommandType_loop args = 2 \/
  getCommandType_loop args = 3.
Proof.
  induction args as [|a rest IH]; simpl; [auto|].
  destruct (strcmp a "&&" =? 0); [auto|].
  destruct (strcmp a ";" =? 0); auto.
Qed.

Lemma getCommandType_loop_skip (pre rest : list token) :
  ";" ∉ pre -> "&&" ∉ pre ->
  getCommandType_loop (pre ++ rest) = getCommandType_loop rest.
Proof.
  induction pre as [|a pre IH]; intros Hs Ha; simpl; [reflexivity|].
  rewrite not_elem_of_cons in Hs, Ha. destruct Hs as [Hs1 Hs2], Ha as [Ha1 Ha2].
  rewrite (strcmp_ne a "&&") by congruence.
  rewrite (strcmp_ne a ";") by congruence.
  apply IH; assumption.
Qed.

Lemma getCommandType_loop_plain (args : list token) :
  ";" ∉ args -> "&&" ∉ args -> getCommandType_loop args = 1.
Proof.
  intros Hs Ha. rewrite <- (app_nil_r args).
  rewrite getCommandType_loop_skip by assumption. reflexivity.
Qed.

Lemma getCommandType_builtin (args : list token) :
  getCommandType args = 4 <-> args = ["quit"] \/ args = ["author"].
Proof.
  split.
  - destruct args as [|a0 rest]; simpl; [discriminate|].
    destruct rest as [|a1 rest]; simpl.
    + destruct (isBuiltin a0 =? 0) eqn:E; simpl.
      * intros H. destruct (getCommandType_loop_range [a0]) as [H1|[H1|H1]];
          simpl in H1; rewrite H1 in H; discriminate.
      * intros _. apply isBuiltin_spec in E as [->| ->]; auto.
    + intros H. destruct (getCommandType_loop_range (a0 :: a1 :: rest)) as [H1|[H1|H1]];
        simpl in H1; rewrite H1 in H; discriminate.
  - intros [->| ->]; reflexivity.
Qed.

Lemma getCommandType_not_builtin (args : list token) :
  args <> [] -> ~ (args = ["quit"] \/ args = ["author"]) ->
  getCommandType args = getCommandType_loop args.
Proof.
  intros Hne Hnb. destruct args as [|a0 rest]; [congruence|].
  unfold getCommandType. destruct rest as [|a1 rest]; simpl is_null; [|reflexivity].
  destruct (isBuiltin a0 =? 0) eqn:E; [reflexivity|].
  apply isBuiltin_spec in E as [->| ->]; exfalso; apply Hnb; auto.
Qed.

Lemma getCommandType_first_delimiter (pre post : list token) :
  ";" ∉ pre -> "&&" ∉ pre ->
  getCommandType (pre ++ "&&" :: post) = 3 /\
  getCommandType (pre ++ ";" :: post) = 2.
Proof.
  intros Hs Ha.
  assert (Hnb : forall d, d = "&&" \/ d = ";" ->
            getCommandType (pre ++ d :: post) = getCommandType_loop (d :: post)).
  { intros d Hd. rewrite getCommandType_not_builtin.
    - apply getCommandType_loop_skip; assumption.
    - destruct pre; discriminate.
    - intros [H|H]; destruct pre as [|x [|y pre]]; simpl in H;
        try discriminate; injection H as ->;
        destruct Hd; discriminate. }
  rewrite !Hnb by auto. split; reflexivity.
Qed.

(** C5. The classifier: [Empty] on the empty sequence (and only there);
    [Builtin] exactly on the one-token sequences [quit] and [author], so
    [quit now] is [Simple]; otherwise the first token that is [&&] or [;]
    decides between [ConditionalGroup] and [SequentialGroup]; otherwise
    [Simple]. *)
Theorem classifier_cases :
  classify [] = Some Empty /\
  (forall args, classify args = Some Empty -> args = []) /\
  (forall args, classify args = Some Builtin <->
                args = ["quit"] \/ args = ["author"]) /\
  classify ["quit"; "now"] = Some Simple /\
  (forall pre post : list token, ";" ∉ pre -> "&&" ∉ pre ->
     classify (pre ++ "&&" :: post) = Some ConditionalGroup /\
     classify (pre ++ ";" :: post) = Some SequentialGroup) /\
  (forall args, args <> [] -> ~ (args = ["quit"] \/ args = ["author"]) ->
     ";" ∉ args -> "&&" ∉ args -> classify args = Some Simple).
Proof.
  split; [reflexivity|]. split; [|split; [|split; [reflexivity|split]]].
  - intros args. destruct args as [|a0 rest]; [reflexivity|].
    unfold classify. intros H. exfalso.
    destruct (Z.eq_dec (getCommandType (a0 :: rest)) 4) as [Hb|Hb].
    + rewrite Hb in H. discriminate.
    + rewrite getCommandType_builtin in Hb.
      rewrite getCommandType_not_builtin in H by (auto; discriminate).
      destruct (getCommandType_loop_range (a0 :: rest)) as [H1|[H1|H1]];
        rewrite H1 in H; discriminate.
  - intros args. rewrite <- getCommandType_builtin. unfold classify. split.
    + destruct (getCommandType args) as [|p|p]; simpl; try discriminate.
      do 3 (destruct p as [p|p|]; simpl; try discriminate). reflexivity.
    + intros ->. reflexivity.
  - intros pre post Hs Ha. unfold classify.
    destruct (getCommandType_first_delimiter pre post Hs Ha) as [-> ->].
    split; reflexivity.
  - intros args Hne Hnb Hs Ha. unfold classify.
    rewrite getCommandType_not_builtin by assumption.
    rewrite getCommandType_loop_plain by assumption. reflexivity.
Qed.

(** ** The executor *)

(** X20. [executeCommand] in each process that runs it, for a command with
    a program name in [args[0]].  In the child ([fork] gave 0) a failed
    [execvp] is reported with [perror] and the child exits with the
    non-zero [EXIT_FAILURE]; a successful one replaces the image.  When
    [fork] fails the failure is reported with [perror] and the call
    returns.  In the parent the call waits with [wait(NULL)], which keeps
    no status, and returns. *)
Theorem executeCommand_outcomes
    (o : os) (args : array) (file : token) (w : world) :
  args !! 0%nat = Some (Some file) ->
  (fork_ret o (forks w) = 0 -> execvp_ret o (forks w) = Some (-1) ->
   executeCommand o args w =
     Halt (Exit EXIT_FAILURE)
       {| forks := S (forks w); reads := reads w;
          trace := trace w ++
            [Call_executeCommand args; Fork 0; Execvp (Some file) args;
             Perror "Error executing command"] |} /\
   EXIT_FAILURE <> 0) /\
  (fork_ret o (forks w) = 0 -> execvp_ret o (forks w) = None ->
   executeCommand o args w =
     Halt (Replaced (Some file) args)
       {| forks := S (forks w); reads := reads w;
          trace := trace w ++
            [Call_executeCommand args; Fork 0; Execvp (Some file) args] |}) /\
  (fork_ret o (forks w) < 0 ->
   executeCommand o args w =
     Ret tt {| forks := S (forks w); reads := reads w;
               trace := trace w ++
                 [Call_executeCommand args; Fork (fork_ret o (forks w));
                  Perror "Fork failed"] |}) /\
  (0 < fork_ret o (forks w) ->
   executeCommand o args w =
     Ret tt {| forks := S (forks w); reads := reads w;
               trace := trace w ++
                 [Call_executeCommand args; Fork (fork_ret o (forks w));
                  Wait] |}).
Proof.
  intros Hfile. split; [|split; [|split]].
  - intros Hpid Hexec. split; [|discriminate].
    unfold executeCommand, execvp, wait, perror, exit, fork.
    unfold mbind, M_bind, mret, M_ret, emit, stop. simpl.
    rewrite Hpid, Hfile. simpl. rewrite Hexec. simpl.
    repeat rewrite <- app_assoc. reflexivity.
  - intros Hpid Hexec.
    unfold executeCommand, execvp, wait, perror, exit, fork.
    unfold mbind, M_bind, mret, M_ret, emit, stop. simpl.
    rewrite Hpid, Hfile. simpl. rewrite Hexec. simpl.
    repeat rewrite <- app_assoc. reflexivity.
  - intros Hpid. rewrite executeCommand_parent by lia.
    unfold parent_tail. replace (0 <? fork_ret o (forks w)) with false
      by (symmetry; apply Z.ltb_ge; lia). reflexivity.
  - intros Hpid. rewrite executeCommand_parent by lia.
    unfold parent_tail. replace (0 <? fork_ret o (forks w)) with true
      by (symmetry; apply Z.ltb_lt; lia). reflexivity.
Qed.

Lemma executeCommand_outcomes_witness :
  executeCommand (os_with 0 (fun _ => None)) (args_of ["nosuch"]) world0 =
    Halt (Exit EXIT_FAILURE)
      {| forks := 1; reads := 0;
         trace := [Call_executeCommand (args_of ["nosuch"]); Fork 0;
                   Execvp (Some "nosuch") (args_of ["nosuch"]);
                   Perror "Error executing command"] |} /\
  executeCommand (os_with (-1) (fun _ => None)) (args_of ["ls"]) world0 =
    Ret tt {| forks := 1; reads := 0;
              trace := [Call_executeCommand (args_of ["ls"]); Fork (-1);
                        Perror "Fork failed"] |} /\
  executeCommand (os_with 7 (fun _ => None)) (args_of ["ls"]) world0 =
    Ret tt {| forks := 1; reads := 0;
              trace := [Call_executeCommand (args_of ["ls"]); Fork 7; Wait] |}.
Proof.
  split; [|split].
  - destruct (executeCommand_outcomes (os_with 0 (fun _ => None))
                (args_of ["nosuch"]) "nosuch" world0 eq_refl) as (Hchild & _).
    apply Hchild; reflexivity.
  - destruct (executeCommand_outcomes (os_with (-1) (fun _ => None))
                (args_of ["ls"]) "ls" world0 eq_refl) as (_ & _ & Hfail & _).
    apply Hfail. simpl. lia.
  - destruct (executeCommand_outcomes (os_with 7 (fun _ => None))
                (args_of ["ls"]) "ls" world0 eq_refl) as (_ & _ & _ & Hparent).
    apply Hparent. simpl. lia.
Defined.


Lemma executeCommand_reads (o : os) (args : array) (w : world) :
  reads (final (executeCommand o args w)) = reads w.
Proof.
  unfold executeCommand, execvp, wait, perror, exit, fork.
  unfold mbind, M_bind, mret, M_ret, emit, stop. simpl.
  destruct (fork_ret o (forks w) =? 0); simpl.
  - destruct (default None (args !! 0%nat)) as [file|]; simpl; [|reflexivity].
    destruct (execvp_ret o (forks w)) as [r|]; simpl; [|reflexivity].
    destruct (r =? -1); reflexivity.
  - destruct (0 <? fork_ret o (forks w)); reflexivity.
Qed.

(** ** The splitter in any process *)



Lemma loop_reads (o : os) (d : token) (args : list token) :
  forall (c : array) (j : nat) (w : world),
  reads (final (handleMultipleCommands_loop o args d c j w)) = reads w.
Proof.
  induction args as [|a rest IH]; intros c j w; simpl; [reflexivity|].
  unfold mbind, M_bind, store_m.
  destruct ((strcmp a d =? 0) || is_null rest).
  - destruct (store c j _) as [c'|]; unfold mret, M_ret, stop; [|reflexivity].
    pose proof (executeCommand_reads o c' w) as He.
    destruct (executeCommand o c' w) as [[] w1|h w1]; simpl in He.
    + rewrite IH. exact He.
    + exact He.
  - destruct (store c j _) as [c'|]; unfold mret, M_ret, stop; [|reflexivity].
    apply IH.
Qed.

(** ** The dispatcher *)

Lemma first_delimiter (args : list token) :
  ";" ∈ args \/ "&&" ∈ args ->
  exists (pre : list token) (d : token) (post : list token),
    args = pre ++ d :: post /\ (d = ";" \/ d = "&&") /\ (";" ∉ pre) /\ ("&&" ∉ pre).
Proof.
  induction args as [|a rest IH]; intros H.
  - destruct H as [H|H]; apply elem_of_nil in H; contradiction.
  - destruct (strcmp a ";" =? 0) eqn:Es.
    { apply strcmp_eq in Es. subst a. exists [], ";", rest.
      repeat split; auto; apply not_elem_of_nil. }
    destruct (strcmp a "&&" =? 0) eqn:Ea.
    { apply strcmp_eq in Ea. subst a. exists [], "&&", rest.
      repeat split; auto; apply not_elem_of_nil. }
    assert (Hs : a <> ";") by (intros ->; rewrite strcmp_refl in Es; discriminate).
    assert (Ha : a <> "&&") by (intros ->; rewrite strcmp_refl in Ea; discriminate).
    destruct IH as (pre & d & post & -> & Hd & Hps & Hpa).
    { destruct H as [H|H]; apply elem_of_cons in H as [H|H]; auto; congruence. }
    exists (a :: pre), d, post. split; [reflexivity|]. split; [exact Hd|].
    split; apply not_elem_of_cons; split; auto.
Qed.


Lemma getCommandType_range (args : list token) :
  getCommandType args = 0 \/ getCommandType args = 1 \/ getCommandType args = 2 \/
  getCommandType args = 3 \/ getCommandType args = 4.
Proof.
  destruct args as [|a0 rest]; [auto|]. unfold getCommandType.
  destruct (is_null rest && negb (isBuiltin a0 =? 0)); [auto 6|].
  destruct (getCommandType_loop_range (a0 :: rest)) as [H|[H|H]];
    rewrite H; auto 6.
Qed.



(** ** Conditional groups and sequential groups *)

Lemma replace_conditional_cons (a : token) (rest : list token) :
  replace_conditional (a :: rest) =
  (if strcmp a "&&" =? 0 then ";" else a) :: replace_conditional rest.
Proof. reflexivity. Qed.

Lemma replace_conditional_id (args : list token) :
  "&&" ∉ args -> replace_conditional args = args.
Proof.
  induction args as [|x args IH]; intros H; [reflexivity|].
  apply not_elem_of_cons in H as [Hx H].
  rewrite replace_conditional_cons, (strcmp_ne x "&&") by congruence.
  rewrite IH by exact H. reflexivity.
Qed.

Lemma loop_cons (o : os) (a d : token) (rest : list token)
    (c : array) (j : nat) :
  handleMultipleCommands_loop o (a :: rest) d c j =
  if (strcmp a d =? 0) || is_null rest then
    commands' ← store_m c j (if is_null rest then Some a else None) ;
    executeCommand o commands' ;;
    handleMultipleCommands_loop o rest d commands' 0
  else
    commands' ← store_m c j (Some a) ;
    handleMultipleCommands_loop o rest d commands' (S j).
Proof. reflexivity. Qed.

Lemma loop_replace (o : os) (args : list token) :
  ";" ∉ args -> last args <> Some "&&" ->
  forall (c : array) (j : nat) (w : world),
  handleMultipleCommands_loop o args "&&" c j w =
  handleMultipleCommands_loop o (replace_conditional args) ";" c j w.
Proof.
  induction args as [|a rest IH]; intros Hs Hlast c j w; [reflexivity|].
  apply not_elem_of_cons in Hs as [Has Hs].
  assert (Hrest : last rest <> Some "&&").
  { destruct rest as [|b rest']; [discriminate|].
    rewrite last_cons_cons in Hlast. exact Hlast. }
  assert (Hnull : is_null (replace_conditional rest) = is_null rest).
  { destruct rest; reflexivity. }
  rewrite replace_conditional_cons, !loop_cons, Hnull.
  destruct (strcmp a "&&" =? 0) eqn:Ea.
  - apply strcmp_eq in Ea. subst a.
    assert (Hn : is_null rest = false).
    { destruct rest; [simpl in Hlast; congruence|reflexivity]. }
    rewrite !strcmp_refl, Hn. cbn [orb].
    unfold mbind, M_bind.
    destruct (store_m c j None w) as [c' w1|h w1]; [|reflexivity].
    destruct (executeCommand o c' w1) as [[] w2|h w2]; [|reflexivity].
    apply IH; assumption.
  - assert (Hne : a <> ";") by congruence.
    rewrite (strcmp_ne a ";") by exact Hne. cbn [orb].
    destruct (is_null rest); unfold mbind, M_bind.
    + destruct (store_m c j (Some a) w) as [c' w1|h w1]; [|reflexivity].
      destruct (executeCommand o c' w1) as [[] w2|h w2]; [|reflexivity].
      apply IH; assumption.
    + destruct (store_m c j (Some a) w) as [c' w1|h w1]; [|reflexivity].
      apply IH; assumption.
Qed.

Lemma getCommandType_conditional (args : list token) :
  "&&" ∈ args -> ";" ∉ args -> last args <> Some "&&" ->
  getCommandType args = 3 /\ getCommandType (replace_conditional args) = 2.
Proof.
  intros Ha Hs Hlast.
  destruct (first_delimiter args (or_intror Ha)) as (pre & d & post & -> & Hd & Hps & Hpa).
  assert (d = "&&") as ->.
  { destruct Hd as [->|Hd]; [|exact Hd]. exfalso. apply Hs.
    apply elem_of_app. right. apply elem_of_cons. left. reflexivity. }
  split; [apply getCommandType_first_delimiter; assumption|].
  unfold replace_conditional. rewrite fmap_app.
  fold (replace_conditional pre). fold (replace_conditional ("&&" :: post)).
  rewrite replace_conditional_id by exact Hpa.
  rewrite replace_conditional_cons, strcmp_refl.
  apply getCommandType_first_delimiter; assumption.
Qed.

(** C6, as stated, fails on a line that mixes the two delimiters:
    [a && b ; c] is split on [&&] only and runs [a] and then [b ; c], while
    [a ; b ; c] runs [a], [b] and [c]. *)
Lemma mixed_delimiters_differ :
  classify ["a"; "&&"; "b"; ";"; "c"] = Some ConditionalGroup /\
  replace_conditional ["a"; "&&"; "b"; ";"; "c"] = ["a"; ";"; "b"; ";"; "c"] /\
  dispatched (os_sample (fun _ => None)) (args_of ["a"; "&&"; "b"; ";"; "c"]) =
    [Some ["a"]; Some ["b"; ";"; "c"]] /\
  dispatched (os_sample (fun _ => None)) (args_of ["a"; ";"; "b"; ";"; "c"]) =
    [Some ["a"]; Some ["b"]; Some ["c"]] /\
  processCommand (os_sample (fun _ => None))
    (args_of ["a"; "&&"; "b"; ";"; "c"]) world0 <>
  processCommand (os_sample (fun _ => None))
    (args_of (replace_conditional ["a"; "&&"; "b"; ";"; "c"])) world0.
Proof.
  repeat split; try (vm_compute; reflexivity).
  vm_compute. discriminate.
Qed.

(** ** The tokenizer *)

Lemma skip_delims_length (s : string) :
  (String.length (skip_delims s) <= String.length s)%nat.
Proof.
  induction s as [|c r IH]; simpl; [lia|].
  destruct (is_delim c); simpl; lia.
Qed.

Lemma scan_token_length (s : string) :
  (String.length (snd (scan_token s)) <= String.length s)%nat.
Proof.
  induction s as [|c r IH]; simpl; [lia|].
  destruct (is_delim c); simpl; [lia|].
  destruct (scan_token r) as [t rest]. simpl in *. lia.
Qed.

Lemma skip_delims_head (s r : string) (c : ascii) :
  skip_delims s = String c r -> is_delim c = false.
Proof.
  induction s as [|c' r' IH]; simpl; [discriminate|].
  destruct (is_delim c') eqn:Ec; [exact IH|].
  intros [= -> ->]. exact Ec.
Qed.

Lemma strtok_shorter (s rest : string) (t : token) :
  strtok s = Some (t, rest) -> (String.length rest < String.length s)%nat.
Proof.
  unfold strtok. pose proof (skip_delims_length s) as Hskip.
  destruct (skip_delims s) as [|c r] eqn:E; [discriminate|].
  apply skip_delims_head in E. simpl. rewrite E.
  pose proof (scan_token_length r) as Hr.
  destruct (scan_token r) as [t' rest']. intros [= _ <-].
  simpl in *. lia.
Qed.

Lemma strtok_empty : strtok EmptyString = None.
Proof. reflexivity. Qed.

(** The loop of [processInput] never runs out of fuel when it is given the
    length of the text left; it fills the array from [j] on with the
    tokens and a [NULL] when they fit, and otherwise stops at the first
    store past the end of the array. *)
Lemma processInput_loop_spec (fuel : nat) :
  forall (s : string) (args : array) (j : nat),
  (String.length s <= fuel)%nat -> (j <= length args)%nat ->
  ((j + length (tokens_loop fuel (strtok s)) < length args)%nat ->
   exists a : array,
     processInput_loop fuel (strtok s) args j = Done a /\
     length a = length args /\ take j a = take j args /\
     argv_of (drop j a) = Some (tokens_loop fuel (strtok s))) /\
  ((length args <= j + length (tokens_loop fuel (strtok s)))%nat ->
   processInput_loop fuel (strtok s) args j = OutOfBounds (length args)).
Proof.
  induction fuel as [|fuel IH]; intros s args j Hfuel Hj.
  - assert (s = EmptyString) as -> by (destruct s; [reflexivity|simpl in Hfuel; lia]).
    rewrite strtok_empty. simpl. unfold store. split.
    + intros Hfit. rewrite Nat.add_0_r in Hfit.
      rewrite decide_True by exact Hfit. eexists. split; [reflexivity|].
      split; [apply length_insert|]. split; [apply take_insert_ge; lia|].
      rewrite drop_insert_ge, Nat.sub_diag by lia.
      destruct (drop j args) eqn:Ed; [|reflexivity].
      apply (f_equal length) in Ed. rewrite length_drop in Ed. simpl in Ed. lia.
    + intros Hover. rewrite decide_False by lia. f_equal. lia.
  - destruct (strtok s) as [[t rest]|] eqn:Etok.
    + apply strtok_shorter in Etok.
      assert (Hrest : (String.length rest <= fuel)%nat) by lia.
      cbn [tokens_loop processInput_loop length]. unfold store.
      destruct (decide (j < length args)%nat) as [Hlt|Hge].
      * assert (Hj' : (S j <= length (<[j:=Some t]> args))%nat)
          by (rewrite length_insert; lia).
        destruct (IH rest (<[j:=Some t]> args) (S j) Hrest Hj') as [IH1 IH2].
        rewrite length_insert in IH1, IH2. split.
        -- intros Hfit. destruct IH1 as (a & Hrun & Hlen & Htake & Hargv); [lia|].
           exists a. split; [exact Hrun|]. split; [exact Hlen|].
           assert (Haj : a !! j = Some (Some t)).
           { rewrite <- (lookup_take_lt a (S j) j) by lia. rewrite Htake.
             rewrite lookup_take_lt by lia.
             apply list_lookup_insert_eq. exact Hlt. }
           split.
           ++ replace (take j a) with (take j (take (S j) a))
                by (rewrite take_take; f_equal; lia).
              rewrite Htake, take_take. replace (j `min` S j)%nat with j by lia.
              apply take_insert_ge. lia.
           ++ rewrite (drop_S a (Some t) j Haj). simpl. rewrite Hargv. reflexivity.
        -- intros Hover. apply IH2. lia.
      * split; [intros Hfit; lia|]. intros _. f_equal. lia.
    + simpl. unfold store. split.
      * intros Hfit. rewrite Nat.add_0_r in Hfit.
        rewrite decide_True by exact Hfit. eexists. split; [reflexivity|].
        split; [apply length_insert|]. split; [apply take_insert_ge; lia|].
        rewrite drop_insert_ge, Nat.sub_diag by lia.
        destruct (drop j args) eqn:Ed; [|reflexivity].
        apply (f_equal length) in Ed. rewrite length_drop in Ed. simpl in Ed. lia.
      * intros Hover. rewrite decide_False by lia. f_equal. lia.
Qed.

Lemma processInput_spec (line : string) (args : array) :
  ((length (tokens line) < length args)%nat ->
   exists a : array,
     processInput line args = Done a /\ length a = length args /\
     argv_of a = Some (tokens line)) /\
  ((length args <= length (tokens line))%nat ->
   processInput line args = OutOfBounds (length args)).
Proof.
  unfold processInput, tokens.
  destruct (processInput_loop_spec (String.length line) line args 0%nat)
    as [H1 H2]; [lia|lia|]. split.
  - intros Hfit. destruct (H1 Hfit) as (a & Hrun & Hlen & _ & Hargv).
    exists a. rewrite drop_0 in Hargv. auto.
  - intros Hover. apply H2. simpl. exact Hover.
Qed.

Lemma processInput_Done (line : string) (args a : array) :
  processInput line args = Done a ->
  argv_of a = Some (tokens line) /\ length a = length args.
Proof.
  intros Hrun. destruct (processInput_spec line args) as [H1 H2].
  destruct (decide (length (tokens line) < length args)%nat) as [Hfit|Hover].
  - destruct (H1 Hfit) as (a' & Hrun' & Hlen & Hargv).
    rewrite Hrun in Hrun'. injection Hrun' as <-. auto.
  - rewrite H2 in Hrun by lia. discriminate.
Qed.

(** C3. [processInput] stores without looking at the size of [args]: a
    line of twenty tokens makes it store the terminator at index 20 of the
    20-entry array, and in general any line with [MAX_NUM_CMDS] tokens or
    more ends in a store outside the array.  Only lines with fewer tokens
    give the terminated sequence of their tokens. *)
Theorem tokenizer_overflows_args :
  (String.length twenty_tokens < MAX_CMD_LENGTH)%nat /\
  length (tokens twenty_tokens) = MAX_NUM_CMDS /\
  (forall g, processInput twenty_tokens (uninit g) = OutOfBounds MAX_NUM_CMDS) /\
  (forall line g, (MAX_NUM_CMDS <= length (tokens line))%nat ->
     processInput line (uninit g) = OutOfBounds MAX_NUM_CMDS) /\
  (forall line g, (length (tokens line) < MAX_NUM_CMDS)%nat ->
     exists a, processInput line (uninit g) = Done a /\
               argv_of a = Some (tokens line)).
Proof.
  assert (Hlen : forall g, length (uninit g) = MAX_NUM_CMDS).
  { intros g. unfold uninit. rewrite length_fmap, length_seq. reflexivity. }
  assert (Hover : forall line g, (MAX_NUM_CMDS <= length (tokens line))%nat ->
            processInput line (uninit g) = OutOfBounds MAX_NUM_CMDS).
  { intros line g H. destruct (processInput_spec line (uninit g)) as [_ H2].
    rewrite Hlen in H2. apply H2. exact H. }
  split; [vm_compute; lia|]. split; [vm_compute; reflexivity|].
  split; [|split; [exact Hover|]].
  - intros g. apply Hover. vm_compute. lia.
  - intros line g H. destruct (processInput_spec line (uninit g)) as [H1 _].
    rewrite Hlen in H1. destruct (H1 H) as (a & Hrun & _ & Hargv).
    exists a. auto.
Qed.

(** ** The interactive loop *)

Lemma interactive_body_cases (o : os) (args : array) (w : world) :
  interactive_body o args w =
  match fgets_ret o (reads w) with
  | None => Ret args (prompted o w)
  | Some line =>
      match processInput line args with
      | Done a =>
          match processCommand o a (prompted o w) with
          | Ret _ w2 => Ret a w2
          | Halt h w2 => Halt h w2
          end
      | OutOfBounds _ | OutOfFuel => Halt Undefined (prompted o w)
      end
  end.
Proof.
  unfold interactive_body, printf, fgets_stdin, processInput_m, prompted.
  unfold mbind, M_bind, mret, M_ret, emit, stop. simpl.
  rewrite <- app_assoc. simpl.
  destruct (fgets_ret o (reads w)) as [line|]; [|reflexivity].
  destruct (processInput line args); reflexivity.
Qed.

Lemma executeBuiltinCommand_cases (a : token) (w : world) :
  let w1 := {| forks := forks w; reads := reads w;
               trace := trace w ++ [Call_executeBuiltinCommand a] |} in
  executeBuiltinCommand a w =
  if strcmp a "quit" =? 0 then Halt (Exit 0) w1
  else if strcmp a "author" =? 0 then
    Ret tt {| forks := forks w; reads := reads w;
              trace := trace w1 ++ [Printf author_text] |}
  else
    Ret tt {| forks := forks w; reads := reads w;
              trace := trace w1 ++ [Fprintf_stderr msg_terribly_wrong] |}.
Proof.
  unfold executeBuiltinCommand, mbind, M_bind, emit. simpl.
  destruct (strcmp a "quit" =? 0); [reflexivity|].
  destruct (strcmp a "author" =? 0); reflexivity.
Qed.

(** In the shell process [processCommand] stops only through [quit], or on
    a store outside an array. *)
Lemma processCommand_halt_parent
    (o : os) (args : array) (toks : list token) (w w' : world) (h : halt) :
  parent o -> argv_of args = Some toks ->
  processCommand o args w = Halt h w' ->
  h = Undefined \/ (h = Exit 0 /\ toks = ["quit"]).
Proof.
  intros Hp Hargs. unfold processCommand. rewrite Hargs.
  destruct (getCommandType_range toks) as [H|[H|[H|[H|H]]]]; rewrite H.
  - discriminate.
  - rewrite executeCommand_parent by apply Hp. discriminate.
  - unfold handleMultipleCommands.
    destruct (loop_parent o ";" toks Hp (uninit (commands_garbage o (forks w))) 0%nat w)
      as (w1 & [Hr|Hr] & _); rewrite Hr; [discriminate|].
    intros [= <- _]. auto.
  - unfold handleMultipleCommands.
    destruct (loop_parent o "&&" toks Hp (uninit (commands_garbage o (forks w))) 0%nat w)
      as (w1 & [Hr|Hr] & _); rewrite Hr; [discriminate|].
    intros [= <- _]. auto.
  - apply getCommandType_builtin in H as [-> | ->].
    + rewrite executeBuiltinCommand_cases. simpl. intros [= <- _]. auto.
    + rewrite executeBuiltinCommand_cases. simpl. discriminate.
Qed.

Lemma processCommand_reads (o : os) (args : array) (w : world) :
  reads (final (processCommand o args w)) = reads w.
Proof.
  unfold processCommand. destruct (argv_of args) as [toks|]; [|reflexivity].
  destruct (getCommandType_range toks) as [H|[H|[H|[H|H]]]]; rewrite H.
  - reflexivity.
  - apply executeCommand_reads.
  - apply loop_reads.
  - apply loop_reads.
  - destruct toks as [|a0 rest]; [reflexivity|].
    rewrite executeBuiltinCommand_cases. cbv zeta.
    destruct (strcmp a0 "quit" =? 0); [reflexivity|].
    destruct (strcmp a0 "author" =? 0); reflexivity.
Qed.

Lemma interactive_body_reads (o : os) (args : array) (w : world) :
  reads (final (interactive_body o args w)) = S (reads w).
Proof.
  rewrite interactive_body_cases.
  destruct (fgets_ret o (reads w)) as [line|]; [|reflexivity].
  destruct (processInput line args) as [a| |]; try reflexivity.
  pose proof (processCommand_reads o a (prompted o w)) as Hr.
  destruct (processCommand o a (prompted o w)); exact Hr.
Qed.

Lemma interactive_loop_failures (o : os) (n : nat) :
  forall (args : array) (w : world),
  (forall k, (k < n)%nat -> fgets_ret o (reads w + k) = None) ->
  interactive_loop o n args w =
    Ret args {| forks := forks w; reads := (reads w + n)%nat;
                trace := trace w ++
                  concat (replicate n [Printf "myshell> "; Fgets None]) |}.
Proof.
  induction n as [|n IH]; intros args w Hfail.
  - simpl. unfold mret, M_ret. rewrite app_nil_r, Nat.add_0_r.
    destruct w; reflexivity.
  - simpl. unfold mbind, M_bind. rewrite interactive_body_cases.
    pose proof (Hfail 0%nat ltac:(lia)) as H0. rewrite Nat.add_0_r in H0.
    rewrite H0. rewrite IH.
    + unfold prompted. simpl. rewrite H0, <- app_assoc. simpl.
      do 2 f_equal. lia.
    + intros k Hk. unfold prompted. simpl.
      replace (S (reads w + k))%nat with (reads w + S k)%nat by lia.
      apply Hfail. lia.
Qed.

Lemma interactive_loop_halt (o : os) (n : nat) :
  parent o ->
  forall (args : array) (w w' : world) (h : halt),
  interactive_loop o n args w = Halt h w' ->
  h = Undefined \/
  (h = Exit 0 /\
   exists (k : nat) (line : string),
     (reads w <= k < reads w + n)%nat /\
     fgets_ret o k = Some line /\ tokens line = ["quit"]).
Proof.
  intros Hp. induction n as [|n IH]; intros args w w' h; [discriminate|].
  simpl. unfold mbind, M_bind.
  pose proof (interactive_body_reads o args w) as Hreads.
  destruct (interactive_body o args w) as [args1 w1|h1 w1] eqn:Hbody.
  - simpl in Hreads. intros Hloop.
    destruct (IH args1 w1 w' h Hloop) as [Hu|(He & k & line & Hk & Hline & Htok)];
      [auto|].
    right. split; [exact He|]. exists k, line. split; [lia|auto].
  - intros [= <- <-]. rewrite interactive_body_cases in Hbody.
    destruct (fgets_ret o (reads w)) as [line|] eqn:Hline; [|discriminate].
    destruct (processInput line args) as [a| |] eqn:Hin.
    + apply processInput_Done in Hin as [Hargv _].
      destruct (processCommand o a (prompted o w)) as [[] w2|h2 w2] eqn:Hcmd;
        [discriminate|].
      injection Hbody as <- <-.
      destruct (processCommand_halt_parent o a (tokens line) _ _ _ Hp Hargv Hcmd)
        as [Hu|[He Htok]]; [auto|].
      right. split; [exact He|]. exists (reads w), line. split; [lia|auto].
    + injection Hbody as <- _. auto.
    + injection Hbody as <- _. auto.
Qed.

(** C9. In interactive mode a failed read only costs a prompt: the turn
    ends with nothing processed and the loop goes on, so any number of
    failed reads in a row leave the shell running with nothing in its trace
    but prompts and failed reads.  The shell process leaves the loop only
    through [quit] read as the single token of a line, with status 0
    (the model marks a store outside an array, which C leaves undefined, as
    a separate outcome). *)
Theorem read_failure_reprompts (o : os) :
  (forall args w, fgets_ret o (reads w) = None ->
     interactive_body o args w =
       Ret args {| forks := forks w; reads := S (reads w);
                   trace := trace w ++ [Printf "myshell> "; Fgets None] |}) /\
  (forall n, (forall k, (k < n)%nat -> fgets_ret o k = None) ->
     main_interactive o n =
       Ret (uninit (args_garbage o))
         {| forks := 0; reads := n;
            trace := concat (replicate n [Printf "myshell> "; Fgets None]) |}) /\
  (parent o ->
   forall n h w', main_interactive o n = Halt h w' ->
     h = Undefined \/
     (h = Exit 0 /\
      exists (k : nat) (line : string),
        (k < n)%nat /\ fgets_ret o k = Some line /\ tokens line = ["quit"])).
Proof.
  split; [|split].
  - intros args w Hfail. rewrite interactive_body_cases, Hfail.
    unfold prompted. rewrite Hfail. reflexivity.
  - intros n Hfail. unfold main_interactive.
    rewrite interactive_loop_failures by (intros k Hk; apply Hfail; exact Hk).
    reflexivity.
  - intros Hp n h w' Hrun. unfold main_interactive in Hrun.
    destruct (interactive_loop_halt o n Hp _ _ _ _ Hrun)
      as [Hu|(He & k & line & Hk & Hline & Htok)]; [auto|].
    right. split; [exact He|]. exists k, line. simpl in Hk.
    split; [lia|auto].
Qed.

Lemma read_failure_reprompts_witness :
  main_interactive (os_sample (fun _ => None)) 3 =
    Ret (uninit (fun _ => None))
      {| forks := 0; reads := 3;
         trace := [Printf "myshell> "; Fgets None;
                   Printf "myshell> "; Fgets None;
                   Printf "myshell> "; Fgets None] |}.
Proof.
  destruct (read_failure_reprompts (os_sample (fun _ => None))) as (_ & Hloop & _).
  apply (Hloop 3%nat). intros k _. reflexivity.
Defined.

(** ** More on the tokenizer *)

Lemma tokens_loop_fuel (f1 : nat) :
  forall (f2 : nat) (s : string),
  (String.length s <= f1)%nat -> (String.length s <= f2)%nat ->
  tokens_loop f1 (strtok s) = tokens_loop f2 (strtok s).
Proof.
  induction f1 as [|f1 IH]; intros f2 s H1 H2.
  - assert (s = EmptyString) as -> by (destruct s; [reflexivity|simpl in H1; lia]).
    rewrite strtok_empty. destruct f2; reflexivity.
  - destruct (strtok s) as [[t rest]|] eqn:E; [|destruct f2; reflexivity].
    apply strtok_shorter in E.
    destruct f2 as [|f2]; [lia|]. simpl. f_equal. apply IH; lia.
Qed.

Lemma tokens_unfold (s : string) :
  tokens s =
  match strtok s with
  | None => []
  | Some (t, rest) => t :: tokens rest
  end.
Proof.
  unfold tokens. destruct (strtok s) as [[t rest]|] eqn:E.
  - pose proof (strtok_shorter _ _ _ E) as Hlt.
    destruct (String.length s) as [|n] eqn:En; [lia|]. simpl. f_equal.
    apply tokens_loop_fuel; lia.
  - destruct (String.length s); reflexivity.
Qed.

Lemma scan_token_clean (s : string) : has_delim (fst (scan_token s)) = false.
Proof.
  induction s as [|c r IH]; simpl; [reflexivity|].
  destruct (is_delim c) eqn:Ec; simpl; [reflexivity|].
  destruct (scan_token r) as [t rest]. simpl in *. rewrite Ec, IH. reflexivity.
Qed.

Lemma strtok_clean (s rest : string) (t : token) :
  strtok s = Some (t, rest) -> clean t.
Proof.
  unfold strtok. destruct (skip_delims s) as [|c r] eqn:E; [discriminate|].
  intros Heq.
  assert (H : scan_token (String c r) = (t, rest)) by congruence. clear Heq.
  pose proof (scan_token_clean (String c r)) as Hc. rewrite H in Hc.
  apply skip_delims_head in E.
  split; [|exact Hc]. simpl in H. rewrite E in H.
  destruct (scan_token r). injection H as <- _. discriminate.
Qed.

Lemma skip_delims_blank (s : string) :
  skip_delims s = EmptyString <-> blank s = true.
Proof.
  induction s as [|c r IH]; simpl; [tauto|].
  destruct (is_delim c); simpl; [exact IH|]. split; discriminate.
Qed.

Lemma strtok_blank (s : string) : strtok s = None <-> blank s = true.
Proof.
  rewrite <- skip_delims_blank. unfold strtok.
  destruct (skip_delims s); split; intros; congruence.
Qed.

Lemma tokens_loop_clean (fuel : nat) :
  forall line : string, Forall clean (tokens_loop fuel (strtok line)).
Proof.
  induction fuel as [|fuel IH]; intros line.
  - destruct (strtok line) as [[t rest]|]; constructor.
  - destruct (strtok line) as [[t rest]|] eqn:E; [|constructor].
    simpl. constructor; [eapply strtok_clean; exact E|apply IH].
Qed.

(** X1. Every token [processInput] produces is a non-empty string without
    space, tab or newline: this holds of the tokens of any line, and so of
    the argument vector found in [args] after a call that stayed inside
    the array. *)
Theorem tokens_are_clean (line : string) :
  Forall clean (tokens line) /\
  (forall args a : array, processInput line args = Done a ->
     exists ts, argv_of a = Some ts /\ Forall clean ts).
Proof.
  assert (H : Forall clean (tokens line)) by apply tokens_loop_clean.
  split; [exact H|]. intros args a Hrun.
  exists (tokens line). split; [|exact H].
  apply (processInput_Done line args a Hrun).
Qed.

(** X2. A line yields no token exactly when it consists of spaces, tabs and
    newlines only (the empty line included). *)
Theorem tokens_nil_iff_blank (line : string) :
  tokens line = [] <-> blank line = true.
Proof.
  rewrite <- strtok_blank, tokens_unfold.
  destruct (strtok line) as [[t rest]|]; split; intros; congruence.
Qed.

Lemma skip_delims_app_blank (s1 s2 : string) :
  blank s1 = true -> skip_delims (s1 ++ s2)%string = skip_delims s2.
Proof.
  induction s1 as [|c r IH]; simpl; [reflexivity|].
  destruct (is_delim c); simpl; [exact IH|discriminate].
Qed.

Lemma skip_delims_app (s1 s2 r : string) (c : ascii) :
  skip_delims s1 = String c r ->
  skip_delims (s1 ++ s2)%string = String c (r ++ s2)%string.
Proof.
  induction s1 as [|c' r' IH]; simpl; [discriminate|].
  destruct (is_delim c'); [exact IH|]. intros [= -> ->]. reflexivity.
Qed.

Lemma scan_token_app_delim (s1 x : string) :
  has_delim s1 = true ->
  scan_token (s1 ++ x)%string =
    (fst (scan_token s1), (snd (scan_token s1) ++ x)%string).
Proof.
  induction s1 as [|c r IH]; simpl; [discriminate|].
  destruct (is_delim c); simpl; [reflexivity|]. intros H.
  rewrite (IH H). destruct (scan_token r). reflexivity.
Qed.

Lemma scan_token_app_clean (s1 s2 : string) (c : ascii) :
  has_delim s1 = false -> is_delim c = true ->
  scan_token (s1 ++ String c s2)%string = (s1, s2).
Proof.
  intros H Hc. induction s1 as [|c1 r IH]; simpl.
  - rewrite Hc. reflexivity.
  - simpl in H. apply orb_false_iff in H as [H1 H2].
    rewrite H1, (IH H2). reflexivity.
Qed.

Lemma scan_token_clean_all (s : string) :
  has_delim s = false -> scan_token s = (s, EmptyString).
Proof.
  induction s as [|c r IH]; simpl; [reflexivity|]. intros H.
  apply orb_false_iff in H as [H1 H2]. rewrite H1, (IH H2). reflexivity.
Qed.

Lemma tokens_empty : tokens EmptyString = [].
Proof. reflexivity. Qed.

Lemma tokens_app_fuel (n : nat) :
  forall (s1 s2 : string) (c : ascii),
  (String.length s1 <= n)%nat -> is_delim c = true ->
  tokens (s1 ++ String c s2)%string = tokens s1 ++ tokens s2.
Proof.
  induction n as [|n IH]; intros s1 s2 c Hn Hc.
  - assert (s1 = EmptyString) as -> by (destruct s1; [reflexivity|simpl in Hn; lia]).
    rewrite tokens_empty. simpl String.append.
    rewrite (tokens_unfold (String c s2)), (tokens_unfold s2).
    unfold strtok. simpl. rewrite Hc. reflexivity.
  - rewrite (tokens_unfold (s1 ++ String c s2)), (tokens_unfold s1).
    unfold strtok.
    destruct (skip_delims s1) as [|c1 r1] eqn:E.
    + apply skip_delims_blank in E.
      rewrite skip_delims_app_blank by exact E. simpl. rewrite Hc.
      rewrite (tokens_unfold s2). reflexivity.
    + rewrite (skip_delims_app _ _ _ _ E).
      pose proof (skip_delims_length s1) as Hskip. rewrite E in Hskip.
      change (String c1 (r1 ++ String c s2)%string)
        with (String c1 r1 ++ String c s2)%string.
      destruct (has_delim (String c1 r1)) eqn:Hd.
      * rewrite scan_token_app_delim by exact Hd.
        pose proof (scan_token_length (String c1 r1)) as Hscan.
        pose proof (skip_delims_head _ _ _ E) as Hc1.
        destruct (scan_token (String c1 r1)) as [t rest] eqn:Es.
        assert (Hrest : (String.length rest <= n)%nat).
        { simpl in Es. rewrite Hc1 in Es.
          pose proof (scan_token_length r1) as Hr1.
          destruct (scan_token r1) as [t' rest']. injection Es as _ <-.
          simpl in *. lia. }
        simpl fst. simpl snd. rewrite (IH rest s2 c Hrest Hc). reflexivity.
      * rewrite scan_token_app_clean by assumption.
        rewrite scan_token_clean_all by exact Hd.
        rewrite tokens_empty. reflexivity.
Qed.

(** X3. Tokenizing composes: the tokens of two pieces of text put together
    with a delimiter character between them are the tokens of the first
    followed by the tokens of the second. *)
Theorem tokens_app (s1 s2 : string) (c : ascii) :
  is_delim c = true ->
  tokens (s1 ++ String c s2)%string = tokens s1 ++ tokens s2.
Proof. intros Hc. apply (tokens_app_fuel (String.length s1)); [lia|exact Hc]. Qed.

Lemma tokens_app_witness :
  is_delim (ascii_of_nat 9) = true /\
  tokens ("echo   hi" ++ String (ascii_of_nat 9) ("there" ++ nl))%string =
    ["echo"; "hi"; "there"].
Proof.
  split; [reflexivity|].
  rewrite (tokens_app "echo   hi" ("there" ++ nl)%string (ascii_of_nat 9)).
  - reflexivity.
  - reflexivity.
Defined.

Lemma tokens_clean_one (t : token) : clean t -> tokens t = [t].
Proof.
  intros [Hne Hd]. rewrite tokens_unfold. unfold strtok.
  destruct t as [|c r]; [congruence|].
  simpl in Hd. apply orb_false_iff in Hd as [Hc Hr].
  cbn [skip_delims]. rewrite Hc.
  rewrite scan_token_clean_all by (simpl; rewrite Hc, Hr; reflexivity).
  rewrite tokens_empty. reflexivity.
Qed.

(** X4. Round trip: clean tokens written with one space between them are
    read back by the tokenizer as the same tokens, in the same order. *)
Theorem tokens_join (ts : list token) :
  Forall clean ts -> tokens (join ts) = ts.
Proof.
  induction ts as [|t rest IH]; intros H; [reflexivity|].
  apply Forall_cons in H as [Ht Hrest].
  destruct rest as [|t' rest'].
  - simpl. apply tokens_clean_one. exact Ht.
  - change (join (t :: t' :: rest'))
      with (t ++ String " "%char (join (t' :: rest')))%string.
    rewrite (tokens_app_fuel (String.length t) t (join (t' :: rest')) " "%char)
      by (lia || reflexivity).
    rewrite (tokens_clean_one t Ht), (IH Hrest). reflexivity.
Qed.

Lemma tokens_join_witness :
  Forall clean ["ls"; "-l"; ";"; "pwd"] /\
  tokens (join ["ls"; "-l"; ";"; "pwd"]) = ["ls"; "-l"; ";"; "pwd"].
Proof.
  assert (H : Forall clean ["ls"; "-l"; ";"; "pwd"]).
  { repeat constructor; discriminate. }
  split; [exact H|]. apply (tokens_join ["ls"; "-l"; ";"; "pwd"] H).
Defined.

Lemma processInput_blank (line : string) (args : array) :
  blank line = true -> (0 < length args)%nat ->
  processInput line args = Done (<[0%nat := None]> args).
Proof.
  intros Hb Hlen. apply strtok_blank in Hb. unfold processInput. rewrite Hb.
  destruct (String.length line); cbn [processInput_loop]; unfold store;
    rewrite decide_True by exact Hlen; reflexivity.
Qed.

(** X5. A blank line costs one turn and nothing else: after the prompt and
    the read, the only effect is the terminator stored in [args[0]]; no
    process is created and nothing is printed. *)
Theorem blank_line_is_ignored
    (o : os) (args : array) (w : world) (line : string) :
  fgets_ret o (reads w) = Some line ->
  blank line = true ->
  (0 < length args)%nat ->
  interactive_body o args w =
    Ret (<[0%nat := None]> args)
      {| forks := forks w; reads := S (reads w);
         trace := trace w ++ [Printf "myshell> "; Fgets (Some line)] |}.
Proof.
  intros Hread Hb Hlen. rewrite interactive_body_cases, Hread.
  rewrite processInput_blank by assumption.
  unfold prompted. rewrite Hread.
  destruct args as [|x rest]; [simpl in Hlen; lia|]. reflexivity.
Qed.

Lemma blank_line_is_ignored_witness :
  interactive_body (os_sample (fun _ => Some "   ")) (args_of ["ls"]) world0 =
    Ret (<[0%nat := None]> (args_of ["ls"]))
      {| forks := 0; reads := 1;
         trace := [Printf "myshell> "; Fgets (Some "   ")] |}.
Proof.
  apply (blank_line_is_ignored (os_sample (fun _ => Some "   "))
           (args_of ["ls"]) world0 "   ").
  - reflexivity.
  - reflexivity.
  - simpl. lia.
Defined.

(** ** More on the splitter *)

Lemma loop_in_bounds (o : os) (d : token) (args : list token) :
  parent o ->
  forall (c : array) (j : nat) (w : world),
  (j + length args <= length c)%nat ->
  exists w', handleMultipleCommands_loop o args d c j w = Ret tt w'.
Proof.
  intros Hp. induction args as [|a rest IH]; intros c j w Hb.
  - exists w. reflexivity.
  - rewrite loop_cons. simpl in Hb. unfold mbind, M_bind, store_m, store.
    destruct ((strcmp a d =? 0) || is_null rest).
    + rewrite decide_True by lia. unfold mret, M_ret.
      rewrite executeCommand_parent by apply Hp.
      apply IH. rewrite length_insert. lia.
    + rewrite decide_True by lia. unfold mret, M_ret.
      apply IH. rewrite length_insert. lia.
Qed.

Lemma removelast_cons_cons {A} (a b : A) (l : list A) :
  removelast (a :: b :: l) = a :: removelast (b :: l).
Proof. reflexivity. Qed.

Lemma loop_calls_cons (a d : token) (rest : list token) (c : array) (j : nat) :
  loop_calls (a :: rest) d c j =
  if (strcmp a d =? 0) || is_null rest then
    match store c j (if is_null rest then Some a else None) with
    | Some c' => c' :: loop_calls rest d c' 0
    | None => []
    end
  else
    match store c j (Some a) with
    | Some c' => loop_calls rest d c' (S j)
    | None => []
    end.
Proof. reflexivity. Qed.

Lemma loop_calls_length (d : token) (args : list token) :
  args <> [] ->
  forall (c : array) (j : nat),
  (j + length args <= length c)%nat ->
  length (loop_calls args d c j) =
    S (count_occ string_dec (removelast args) d).
Proof.
  induction args as [|a rest IH]; intros Hne c j Hb; [congruence|].
  simpl in Hb. destruct rest as [|b rest'].
  - simpl. rewrite orb_true_r. unfold store.
    rewrite decide_True by lia. reflexivity.
  - rewrite removelast_cons_cons.
    assert (Hrec : forall c' j', (j' + length (b :: rest') <= length c')%nat ->
              length (loop_calls (b :: rest') d c' j') =
              S (count_occ string_dec (removelast (b :: rest')) d)).
    { intros c' j'. apply IH. discriminate. }
    rewrite loop_calls_cons. cbn [is_null]. rewrite orb_false_r. unfold store.
    rewrite !decide_True by lia.
    destruct (strcmp a d =? 0) eqn:Ead.
    + apply strcmp_eq in Ead. subst a. cbn [length].
      rewrite Hrec by (rewrite length_insert; simpl in *; lia).
      rewrite count_occ_cons_eq by reflexivity. reflexivity.
    + rewrite Hrec by (rewrite length_insert; simpl in *; lia).
      rewrite count_occ_cons_neq; [reflexivity|].
      intros ->. rewrite strcmp_refl in Ead. discriminate.
Qed.

Lemma uninit_length (g : nat -> slot) : length (uninit g) = MAX_NUM_CMDS.
Proof. unfold uninit. rewrite length_fmap, length_seq. reflexivity. Qed.

(** X6. On a line of at most [MAX_NUM_CMDS] tokens the splitter stays
    inside [commands] and returns to its caller, having called the
    executor once for every delimiter that is not the last token of the
    line and once more for the end of the line. *)
Theorem splitter_stays_in_bounds
    (o : os) (args : list token) (delimiter : token) :
  parent o -> args <> [] -> (length args <= MAX_NUM_CMDS)%nat ->
  (exists w', handleMultipleCommands o args delimiter world0 = Ret tt w') /\
  length (executed o args delimiter) =
    S (count_occ string_dec (removelast args) delimiter).
Proof.
  intros Hp Hne Hlen. split.
  - unfold handleMultipleCommands. apply loop_in_bounds; [exact Hp|].
    rewrite uninit_length. simpl. exact Hlen.
  - unfold executed. rewrite length_fmap.
    rewrite handleMultipleCommands_parent by exact Hp.
    apply loop_calls_length; [exact Hne|].
    rewrite uninit_length. simpl. exact Hlen.
Qed.

Lemma splitter_stays_in_bounds_witness :
  length (executed (os_sample (fun _ => None)) ["ls"; ";"; ";"; "pwd"; ";"] ";") =
    3%nat.
Proof.
  destruct (splitter_stays_in_bounds (os_sample (fun _ => None))
              ["ls"; ";"; ";"; "pwd"; ";"] ";") as [_ Hcount].
  - intros n. simpl. discriminate.
  - discriminate.
  - simpl. unfold MAX_NUM_CMDS. lia.
  - exact Hcount.
Defined.

Lemma argv_of_exact (g : list token) :
  forall a : array,
  take (length g) a = Some <$> g -> a !! length g = Some None ->
  argv_of a = Some g.
Proof.
  induction g as [|t g IH]; intros a Htake Hnull.
  - destruct a as [|[x|] a]; simpl in Hnull; try discriminate. reflexivity.
  - destruct a as [|x a]; [discriminate|].
    simpl in Htake. injection Htake as -> Htake. simpl in Hnull.
    simpl. rewrite (IH a Htake Hnull). reflexivity.
Qed.

Lemma take_store_snoc (c : array) (acc : list token) (a : token) :
  (length acc < length c)%nat ->
  take (length acc) c = Some <$> acc ->
  take (S (length acc)) (<[length acc := Some a]> c) = Some <$> (acc ++ [a]).
Proof.
  intros Hlt Htake.
  rewrite (take_S_r _ _ (Some a)) by (apply list_lookup_insert_eq; exact Hlt).
  rewrite take_insert_ge by lia. rewrite Htake, fmap_app. reflexivity.
Qed.

Lemma is_null_snoc {A} (l : list A) (z : A) : is_null (l ++ [z]) = false.
Proof. destruct l; reflexivity. Qed.

Lemma loop_calls_groups (d z : token) (body : list token) :
  forall (c : array) (acc : list token),
  (length acc + S (length body) <= length c)%nat ->
  take (length acc) c = Some <$> acc ->
  exists (calls : list array) (a : array) (gs : list (list token)) (g : list token),
    loop_calls (body ++ [z]) d c (length acc) = calls ++ [a] /\
    split_on d acc body = gs ++ [g] /\
    argv_of <$> calls = Some <$> gs /\
    take (S (length g)) a = Some <$> (g ++ [z]).
Proof.
  induction body as [|a body IH]; intros c acc Hb Htake.
  - exists [], (<[length acc := Some z]> c), [], acc.
    simpl app. rewrite loop_calls_cons. cbn [is_null]. rewrite orb_true_r.
    unfold store. rewrite decide_True by (simpl in Hb; lia).
    split; [reflexivity|]. split; [reflexivity|]. split; [reflexivity|].
    apply take_store_snoc; [simpl in Hb; lia|exact Htake].
  - change ((a :: body) ++ [z]) with (a :: (body ++ [z])).
    rewrite loop_calls_cons, is_null_snoc, orb_false_r. simpl in Hb.
    unfold store. rewrite !decide_True by lia. cbn [split_on].
    destruct (strcmp a d =? 0) eqn:Ead.
    + destruct (IH (<[length acc := None]> c) [])
        as (calls & a' & gs & g & Hcalls & Hsplit & Hexact & Hlast).
      { rewrite length_insert. simpl. lia. }
      { reflexivity. }
      exists (<[length acc := None]> c :: calls), a', (acc :: gs), g.
      simpl length in Hcalls. rewrite Hcalls, Hsplit.
      split; [reflexivity|]. split; [reflexivity|]. split; [|exact Hlast].
      rewrite !fmap_cons, Hexact. f_equal. apply argv_of_exact.
      * rewrite take_insert_ge by lia. exact Htake.
      * apply list_lookup_insert_eq. lia.
    + destruct (IH (<[length acc := Some a]> c) (acc ++ [a]))
        as (calls & a' & gs & g & Hcalls & Hsplit & Hexact & Hlast).
      { rewrite length_insert, length_app. simpl. lia. }
      { rewrite length_app. simpl. rewrite Nat.add_1_r.
        apply take_store_snoc; [lia|exact Htake]. }
      exists calls, a', gs, g.
      rewrite length_app in Hcalls. simpl in Hcalls. rewrite Nat.add_1_r in Hcalls.
      auto.
Qed.

Lemma split_on_last (d : token) (body : list token) :
  forall acc : list token,
  exists (gs : list (list token)) (g : list token),
    split_on d acc body = gs ++ [g].
Proof.
  induction body as [|a body IH]; intros acc; simpl.
  - exists [], acc. reflexivity.
  - destruct (strcmp a d =? 0); [|apply IH].
    destruct (IH []) as (gs & g & ->). exists (acc :: gs), g. reflexivity.
Qed.

Lemma split_on_snoc (d z : token) (body : list token) :
  z <> d ->
  forall (acc : list token) (gs : list (list token)) (g : list token),
  split_on d acc body = gs ++ [g] ->
  split_on d acc (body ++ [z]) = gs ++ [g ++ [z]].
Proof.
  intros Hz. induction body as [|a body IH]; intros acc gs g Hsplit.
  - simpl in *. rewrite (strcmp_ne z d Hz).
    change [acc] with ([] ++ [acc]) in Hsplit.
    apply app_inj_tail in Hsplit as [<- <-]. reflexivity.
  - simpl in *. destruct (strcmp a d =? 0); [|apply IH; exact Hsplit].
    destruct (split_on_last d body []) as (gs' & g' & Hrec).
    rewrite Hrec in Hsplit.
    change (acc :: gs' ++ [g']) with ((acc :: gs') ++ [g']) in Hsplit.
    apply app_inj_tail in Hsplit as [<- <-].
    rewrite (IH [] gs' g' Hrec). reflexivity.
Qed.

(** X7. What the splitter passes, group by group.  Take a line of at most
    [MAX_NUM_CMDS] tokens and cut the tokens before its last one at every
    delimiter.  The executor is called once per piece, in order; every call
    but the last receives exactly its piece (an empty piece gives an empty
    vector), and the array of the last call starts with the last piece
    followed by the last token of the line.  When that last token is not
    the delimiter, these are the groups of the whole line. *)
Theorem splitter_groups
    (o : os) (body : list token) (z delimiter : token) :
  parent o -> (length body < MAX_NUM_CMDS)%nat ->
  exists (calls : list array) (a : array) (gs : list (list token)) (g : list token),
    invocations
      (trace (final (handleMultipleCommands o (body ++ [z]) delimiter world0))) =
      calls ++ [a] /\
    split_on delimiter [] body = gs ++ [g] /\
    argv_of <$> calls = Some <$> gs /\
    take (S (length g)) a = Some <$> (g ++ [z]) /\
    (z <> delimiter -> split_on delimiter [] (body ++ [z]) = gs ++ [g ++ [z]]).
Proof.
  intros Hp Hlen. rewrite handleMultipleCommands_parent by exact Hp.
  destruct (loop_calls_groups delimiter z body (uninit (commands_garbage o 0)) [])
    as (calls & a & gs & g & Hcalls & Hsplit & Hexact & Hlast).
  - rewrite uninit_length. simpl. lia.
  - reflexivity.
  - exists calls, a, gs, g. simpl length in Hcalls.
    repeat split; try assumption.
    intros Hz. apply split_on_snoc; assumption.
Qed.

Lemma splitter_groups_witness :
  exists (calls : list array) (a : array),
    invocations
      (trace (final (handleMultipleCommands (os_sample (fun _ => None))
                       (["ls"; "-l"; ";"; ";"; "echo"] ++ ["hi"]) ";" world0))) =
      calls ++ [a] /\
    argv_of <$> calls = [Some ["ls"; "-l"]; Some []] /\
    take 2 a = [Some "echo"; Some "hi"].
Proof.
  destruct (splitter_groups (os_sample (fun _ => None))
              ["ls"; "-l"; ";"; ";"; "echo"] "hi" ";")
    as (calls & a & gs & g & Hcalls & Hsplit & Hexact & Hlast & _).
  - intros n. simpl. discriminate.
  - simpl. unfold MAX_NUM_CMDS. lia.
  - exists calls, a. split; [exact Hcalls|].
    assert (Hgs : gs = [["ls"; "-l"]; []] /\ g = ["echo"]).
    { change (split_on ";" [] ["ls"; "-l"; ";"; ";"; "echo"])
        with ([["ls"; "-l"]; []] ++ [["echo"]]) in Hsplit.
      apply app_inj_tail in Hsplit as [<- <-]. auto. }
    destruct Hgs as [-> ->]. split; [exact Hexact|exact Hlast].
Defined.

(** ** The events of a computation *)

Lemma emits_ret {A} (P : event -> Prop) (a : A) : emits P (mret a : M A).
Proof. intros w. exists []. rewrite app_nil_r. split; [reflexivity|constructor]. Qed.

Lemma emits_stop {A} (P : event -> Prop) (h : halt) : emits P (stop h : M A).
Proof. intros w. exists []. rewrite app_nil_r. split; [reflexivity|constructor]. Qed.

Lemma emits_emit (P : event -> Prop) (e : event) : P e -> emits P (emit e).
Proof. intros He w. exists [e]. split; [reflexivity|]. constructor; [exact He|constructor]. Qed.

Lemma emits_bind {A B} (P : event -> Prop) (m : M A) (f : A -> M B) :
  emits P m -> (forall a, emits P (f a)) -> emits P (m ≫= f).
Proof.
  intros Hm Hf w. unfold mbind, M_bind.
  destruct (Hm w) as (n1 & E1 & F1).
  destruct (m w) as [a w1|h w1]; simpl in E1.
  - destruct (Hf a w1) as (n2 & E2 & F2).
    exists (n1 ++ n2). rewrite E2, E1, app_assoc. split; [reflexivity|].
    apply Forall_app. auto.
  - exists n1. auto.
Qed.

Lemma emits_store_m (P : event -> Prop) (c : array) (j : nat) (v : slot) :
  emits P (store_m c j v).
Proof. unfold store_m. destruct (store c j v); [apply emits_ret|apply emits_stop]. Qed.

Lemma emits_fork (P : event -> Prop) (o : os) :
  (forall z, P (Fork z)) -> emits P (fork o).
Proof.
  intros HP w. exists [Fork (fork_ret o (forks w))].
  split; [reflexivity|]. constructor; [apply HP|constructor].
Qed.

Lemma emits_execvp (P : event -> Prop) (o : os) (file : slot) (argv : array) :
  P (Execvp file argv) -> emits P (execvp o file argv).
Proof.
  intros HP w. unfold execvp.
  destruct file as [f|];
    [|apply (emits_bind P); [apply emits_emit; exact HP|intros; apply emits_stop]].
  destruct (execvp_ret o (Init.Nat.pred (forks w))).
  - apply (emits_bind P); [apply emits_emit; exact HP|intros; apply emits_ret].
  - apply (emits_bind P); [apply emits_emit; exact HP|intros; apply emits_stop].
Qed.

Lemma emits_executeCommand (o : os) (args : array) :
  emits command_event (executeCommand o args).
Proof.
  unfold executeCommand.
  apply emits_bind; [apply emits_emit; exact I|intros _].
  apply emits_bind; [apply emits_fork; intros; exact I|intros pid].
  destruct (pid =? 0).
  - apply emits_bind; [apply emits_execvp; exact I|intros r].
    destruct (r =? -1); [|apply emits_ret].
    apply emits_bind; [apply emits_emit; exact I|intros _; apply emits_stop].
  - destruct (0 <? pid); apply emits_emit; exact I.
Qed.

Lemma emits_loop (o : os) (d : token) (args : list token) :
  forall (c : array) (j : nat),
  emits command_event (handleMultipleCommands_loop o args d c j).
Proof.
  induction args as [|a rest IH]; intros c j; [apply emits_ret|].
  rewrite loop_cons. destruct ((strcmp a d =? 0) || is_null rest).
  - apply emits_bind; [apply emits_store_m|intros c'].
    apply emits_bind; [apply emits_executeCommand|intros _; apply IH].
  - apply emits_bind; [apply emits_store_m|intros c'; apply IH].
Qed.

Lemma emits_handleMultipleCommands (o : os) (args : list token) (d : token) :
  emits command_event (handleMultipleCommands o args d).
Proof. intros w. unfold handleMultipleCommands. apply emits_loop. Qed.

(** X8. The table is searched the same way by the test and by the
    dispatch, whatever the table: when [isBuiltin]'s loop answers 1, the
    dispatch runs the function of the first entry with that name; when it
    answers 0, the dispatch writes its internal-error message (the line
    "Error: Something is terribly wrong in my code." with its newline) to
    standard error and returns. *)
Theorem builtin_lookup_agrees (arg : token) (table : list BuiltinCmd) :
  (isBuiltin_loop arg table = 1 /\
   exists (before : list BuiltinCmd) (b : BuiltinCmd) (after : list BuiltinCmd),
     table = before ++ b :: after /\ name b = arg /\
     Forall (fun b' => name b' <> arg) before /\
     executeBuiltinCommand_loop arg table = run_builtin (func b)) \/
  (isBuiltin_loop arg table = 0 /\
   Forall (fun b' => name b' <> arg) table /\
   executeBuiltinCommand_loop arg table =
     fprintf_stderr
       ("Error: Something is terribly wrong in my code." ++ nl)%string).
Proof.
  induction table as [|b table IH]; simpl.
  - right. repeat split. constructor.
  - destruct (strcmp arg (name b) =? 0) eqn:E.
    + apply strcmp_eq in E. left. split; [reflexivity|].
      exists [], b, table. repeat split; [symmetry; exact E|constructor].
    + assert (Hne : name b <> arg).
      { intros H. rewrite H, strcmp_refl in E. discriminate. }
      destruct IH as [(H1 & before & b' & after & -> & Hn & Hb & Hrun)
                     |(H0 & Hall & Hrun)].
      * left. split; [exact H1|].
        exists (b :: before), b', after. repeat split; try assumption.
        constructor; assumption.
      * right. repeat split; try assumption. constructor; assumption.
Qed.

Lemma emits_processCommand (o : os) (args : array) :
  emits command_event (processCommand o args).
Proof.
  unfold processCommand. destruct (argv_of args) as [toks|]; [|apply emits_stop].
  destruct (getCommandType_range toks) as [H|[H|[H|[H|H]]]]; rewrite H.
  - apply emits_ret.
  - apply emits_executeCommand.
  - apply emits_handleMultipleCommands.
  - apply emits_handleMultipleCommands.
  - apply getCommandType_builtin in H as [-> | ->].
    + apply emits_bind; [apply emits_emit; exact I|intros _]. apply emits_stop.
    + apply emits_bind; [apply emits_emit; exact I|intros _].
      apply emits_emit. exact I.
Qed.

Lemma simple_command_runs_once_aux
    (o : os) (args : array) (toks : list token) (w : world) :
  parent o ->
  argv_of args = Some toks -> toks <> [] ->
  ";" ∉ toks -> "&&" ∉ toks ->
  ~ (toks = ["quit"] \/ toks = ["author"]) ->
  processCommand o args w =
    Ret tt {| forks := S (forks w); reads := reads w;
              trace := trace w ++
                [Call_executeCommand args; Fork (fork_ret o (forks w));
                 parent_tail (fork_ret o (forks w))] |}.
Proof.
  intros Hp Hargs Hne Hs Ha Hnb. unfold processCommand. rewrite Hargs.
  rewrite getCommandType_not_builtin by assumption.
  rewrite getCommandType_loop_plain by assumption.
  apply executeCommand_parent. apply Hp.
Qed.

(** X10. A simple command (a line with tokens, no [;], no [&&], not a lone
    built-in name) is executed once, with [main]'s array itself as the
    argument vector: in the shell process [processCommand] forks once and
    returns. *)
Theorem simple_command_runs_once
    (o : os) (args : array) (toks : list token) (w : world) :
  parent o ->
  argv_of args = Some toks -> toks <> [] ->
  ";" ∉ toks -> "&&" ∉ toks ->
  ~ (toks = ["quit"] \/ toks = ["author"]) ->
  processCommand o args w =
    Ret tt {| forks := S (forks w); reads := reads w;
              trace := trace w ++
                [Call_executeCommand args; Fork (fork_ret o (forks w));
                 parent_tail (fork_ret o (forks w))] |}.
Proof.
  apply simple_command_runs_once_aux.
Qed.

Lemma simple_command_runs_once_witness :
  processCommand (os_sample (fun _ => None)) (args_of ["quit"; "now"]) world0 =
    Ret tt {| forks := 1; reads := 0;
              trace := [Call_executeCommand (args_of ["quit"; "now"]);
                        Fork 7; Wait] |}.
Proof.
  apply (simple_command_runs_once (os_sample (fun _ => None))
           (args_of ["quit"; "now"]) ["quit"; "now"] world0).
  - intros n. simpl. discriminate.
  - reflexivity.
  - discriminate.
  - rewrite !not_elem_of_cons. repeat split; try discriminate. apply not_elem_of_nil.
  - rewrite !not_elem_of_cons. repeat split; try discriminate. apply not_elem_of_nil.
  - intros [H|H]; discriminate.
Defined.

(** ** Children never come back *)

Lemma fork_rets_app (t1 t2 : list event) :
  fork_rets (t1 ++ t2) = fork_rets t1 ++ fork_rets t2.
Proof. apply omap_app. Qed.

Lemma keeps_ret {A} (a : A) : keeps_parent (mret a : M A).
Proof. intros w a' w' [= _ <-] H. exact H. Qed.

Lemma keeps_stop {A} (h : halt) : keeps_parent (stop h : M A).
Proof. intros w a w' H. discriminate. Qed.

Lemma keeps_bind {A B} (m : M A) (f : A -> M B) :
  keeps_parent m -> (forall a, keeps_parent (f a)) -> keeps_parent (m ≫= f).
Proof.
  intros Hm Hf w b w' Hrun Hw. unfold mbind, M_bind in Hrun.
  destruct (m w) as [a w1|h w1] eqn:E; [|discriminate].
  eapply Hf; [exact Hrun|]. eapply Hm; [exact E|exact Hw].
Qed.

Lemma keeps_emit (e : event) :
  (forall z, e <> Fork z) -> keeps_parent (emit e).
Proof.
  intros He w a w' [= _ <-] H. unfold no_child in *. cbn [trace].
  rewrite fork_rets_app. apply Forall_app. split; [exact H|].
  destruct e; simpl; try (constructor; fail).
  exfalso. eapply He. reflexivity.
Qed.

Lemma keeps_store_m (c : array) (j : nat) (v : slot) : keeps_parent (store_m c j v).
Proof. unfold store_m. destruct (store c j v); [apply keeps_ret|apply keeps_stop]. Qed.

(** In a child the call of [executeCommand] is the end of the shell's
    code: with a program name in [args[0]] the image is replaced or the
    child exits with [EXIT_FAILURE]; with [NULL] there (an empty group)
    the call of [execvp] is undefined. *)
Lemma executeCommand_child (o : os) (args : array) (w : world) :
  posix o -> fork_ret o (forks w) = 0 ->
  exists (h : halt) (w' : world),
    executeCommand o args w = Halt h w' /\
    match default None (args !! 0%nat) with
    | Some file => h = Exit EXIT_FAILURE \/ h = Replaced (Some file) args
    | None => h = Undefined
    end.
Proof.
  intros Hposix Hpid.
  unfold executeCommand, execvp, wait, perror, exit, fork.
  unfold mbind, M_bind, mret, M_ret, emit, stop. simpl.
  rewrite Hpid. simpl.
  destruct (default None (args !! 0%nat)) as [file|]; simpl; [|eauto].
  destruct (execvp_ret o (forks w)) as [r|] eqn:E; simpl.
  - rewrite (Hposix _ _ E). simpl. eauto.
  - eauto.
Qed.

Lemma keeps_executeCommand (o : os) (args : array) :
  posix o -> keeps_parent (executeCommand o args).
Proof.
  intros Hposix w a w' Hrun Hw.
  destruct (Z.eq_dec (fork_ret o (forks w)) 0) as [Hpid|Hpid].
  - destruct (executeCommand_child o args w Hposix Hpid) as (h & w1 & E & _).
    rewrite E in Hrun. discriminate.
  - rewrite executeCommand_parent in Hrun by exact Hpid.
    injection Hrun as _ <-. unfold no_child in *. cbn [trace].
    rewrite fork_rets_app. apply Forall_app. split; [exact Hw|].
    unfold parent_tail. destruct (0 <? fork_ret o (forks w)); simpl;
      constructor; auto.
Qed.

Lemma keeps_loop (o : os) (d : token) (args : list token) :
  posix o ->
  forall (c : array) (j : nat),
  keeps_parent (handleMultipleCommands_loop o args d c j).
Proof.
  intros Hposix. induction args as [|a rest IH]; intros c j; [apply keeps_ret|].
  rewrite loop_cons. destruct ((strcmp a d =? 0) || is_null rest).
  - apply keeps_bind; [apply keeps_store_m|intros c'].
    apply keeps_bind; [apply keeps_executeCommand; exact Hposix|intros _; apply IH].
  - apply keeps_bind; [apply keeps_store_m|intros c'; apply IH].
Qed.

Lemma keeps_processCommand (o : os) (args : array) :
  posix o -> keeps_parent (processCommand o args).
Proof.
  intros Hposix. unfold processCommand.
  destruct (argv_of args) as [toks|]; [|apply keeps_stop].
  destruct (getCommandType_range toks) as [H|[H|[H|[H|H]]]]; rewrite H.
  - apply keeps_ret.
  - apply keeps_executeCommand. exact Hposix.
  - intros w. unfold handleMultipleCommands. apply keeps_loop. exact Hposix.
  - intros w. unfold handleMultipleCommands. apply keeps_loop. exact Hposix.
  - apply getCommandType_builtin in H as [-> | ->].
    + apply keeps_bind; [apply keeps_emit; discriminate|intros _; apply keeps_stop].
    + apply keeps_bind; [apply keeps_emit; discriminate|intros _].
      apply keeps_emit. discriminate.
Qed.

Lemma keeps_processInput_m (line : string) (args : array) :
  keeps_parent (processInput_m line args).
Proof.
  unfold processInput_m.
  destruct (processInput line args); [apply keeps_ret|apply keeps_stop|apply keeps_stop].
Qed.

Lemma keeps_interactive_body (o : os) (args : array) :
  posix o -> keeps_parent (interactive_body o args).
Proof.
  intros Hposix. unfold interactive_body.
  apply keeps_bind; [apply keeps_emit; discriminate|intros _].
  apply keeps_bind.
  - intros w r w' [= _ <-] H. unfold no_child in *. cbn [trace].
    rewrite fork_rets_app. simpl. rewrite app_nil_r. exact H.
  - intros [line|]; [|apply keeps_ret].
    apply keeps_bind; [apply keeps_processInput_m|intros a].
    apply keeps_bind; [apply keeps_processCommand; exact Hposix|intros _].
    apply keeps_ret.
Qed.

Lemma keeps_interactive_loop (o : os) (n : nat) :
  posix o -> forall args, keeps_parent (interactive_loop o n args).
Proof.
  intros Hposix. induction n as [|n IH]; intros args; [apply keeps_ret|].
  simpl. apply keeps_bind; [apply keeps_interactive_body; exact Hposix|exact IH].
Qed.

Lemma keeps_batch_loop (o : os) (file : list string) :
  posix o -> forall args, keeps_parent (batch_loop o file args).
Proof.
  intros Hposix. induction file as [|line file IH]; intros args; simpl.
  - apply keeps_bind; [apply keeps_emit; discriminate|intros _; apply keeps_ret].
  - apply keeps_bind; [apply keeps_emit; discriminate|intros _].
    apply keeps_bind; [apply keeps_processInput_m|intros a].
    apply keeps_bind; [apply keeps_processCommand; exact Hposix|intros _].
    apply IH.
Qed.

(** X11. A child never comes back into the shell's loop.  In the process
    where [fork] returned 0, [executeCommand] ends the shell's code: with
    a program name in [args[0]] the image is replaced or the child exits
    with [EXIT_FAILURE]; with [args[0] == NULL] (the empty group of
    [; ls]) the call [execvp(NULL, ...)] is undefined, and the child ends
    there too.  So a process in which [main] is still looping, or
    returns, has never been a child: the remaining groups of a line and
    the following lines are run by the shell only, never by a child. *)
Theorem child_never_returns (o : os) :
  posix o ->
  (forall args w, fork_ret o (forks w) = 0 ->
     exists (h : halt) (w' : world),
       executeCommand o args w = Halt h w' /\
       match default None (args !! 0%nat) with
       | Some file => h = Exit EXIT_FAILURE \/ h = Replaced (Some file) args
       | None => h = Undefined
       end) /\
  (forall argc fopen_ret turns r w',
     main o argc fopen_ret turns world0 = Ret r w' -> no_child (trace w')).
Proof.
  intros Hposix. split.
  - intros args w. apply executeCommand_child. exact Hposix.
  - intros argc fopen_ret turns r w' Hrun.
    assert (Hmain : keeps_parent (main o argc fopen_ret turns)).
    { unfold main. destruct (argc =? 1).
      - apply keeps_bind; [apply keeps_interactive_loop; exact Hposix|].
        intros _. apply keeps_ret.
      - destruct (if argc =? 2 then fopen_ret else None) as [file|].
        + apply keeps_bind; [apply keeps_batch_loop; exact Hposix|intros _].
          apply keeps_bind; [apply keeps_ret|intros _; apply keeps_ret].
        + apply keeps_bind; [apply keeps_emit; discriminate|intros _].
          apply keeps_ret. }
    eapply Hmain; [exact Hrun|]. constructor.
Qed.

Lemma child_never_returns_witness :
  posix (os_with 0 (fun _ => None)) /\
  (exists (h : halt) (w' : world),
     executeCommand (os_with 0 (fun _ => None)) (args_of ["ls"]) world0 =
       Halt h w' /\
     (h = Exit EXIT_FAILURE \/ h = Replaced (Some "ls") (args_of ["ls"]))) /\
  (exists (h : halt) (w' : world),
     executeCommand (os_with 0 (fun _ => None)) (args_of []) world0 =
       Halt h w' /\ h = Undefined).
Proof.
  assert (Hposix : posix (os_with 0 (fun _ => None))).
  { intros n r. simpl. intros [= <-]. reflexivity. }
  split; [exact Hposix|].
  destruct (child_never_returns (os_with 0 (fun _ => None)) Hposix) as [Hchild _].
  split.
  - apply (Hchild (args_of ["ls"]) world0). reflexivity.
  - apply (Hchild (args_of []) world0). reflexivity.
Defined.

(** ** Lines that fit in the arrays *)

Lemma processCommand_parent_safe
    (o : os) (args : array) (toks : list token) (w : world) :
  parent o -> argv_of args = Some toks ->
  (length toks <= MAX_NUM_CMDS)%nat ->
  (exists w', processCommand o args w = Ret tt w') \/
  (toks = ["quit"] /\
   processCommand o args w =
     Halt (Exit 0) {| forks := forks w; reads := reads w;
                      trace := trace w ++ [Call_executeBuiltinCommand "quit"] |}).
Proof.
  intros Hp Hargs Hlen. unfold processCommand. rewrite Hargs.
  destruct (getCommandType_range toks) as [H|[H|[H|[H|H]]]]; rewrite H.
  - left. eexists. reflexivity.
  - left. rewrite executeCommand_parent by apply Hp. eexists. reflexivity.
  - left. unfold handleMultipleCommands. apply loop_in_bounds; [exact Hp|].
    rewrite uninit_length. simpl. exact Hlen.
  - left. unfold handleMultipleCommands. apply loop_in_bounds; [exact Hp|].
    rewrite uninit_length. simpl. exact Hlen.
  - apply getCommandType_builtin in H as [-> | ->].
    + right. split; reflexivity.
    + left. eexists. reflexivity.
Qed.

Lemma processInput_fits (line : string) (args : array) :
  length args = MAX_NUM_CMDS ->
  (length (tokens line) < MAX_NUM_CMDS)%nat ->
  exists a : array,
    processInput line args = Done a /\ length a = MAX_NUM_CMDS /\
    argv_of a = Some (tokens line).
Proof.
  intros Hlen Hfit. destruct (processInput_spec line args) as [H1 _].
  rewrite Hlen in H1. destruct (H1 Hfit) as (a & Hrun & Hla & Hargv).
  exists a. auto.
Qed.

Lemma interactive_loop_safe (o : os) (n : nat) :
  parent o ->
  forall (args : array) (w : world),
  length args = MAX_NUM_CMDS ->
  (forall k line, (reads w <= k < reads w + n)%nat ->
     fgets_ret o k = Some line -> (length (tokens line) < MAX_NUM_CMDS)%nat) ->
  (exists a w', interactive_loop o n args w = Ret a w') \/
  (exists w', interactive_loop o n args w = Halt (Exit 0) w').
Proof.
  intros Hp. induction n as [|n IH]; intros args w Hlen Hshort.
  - left. exists args, w. reflexivity.
  - simpl. unfold mbind, M_bind.
    pose proof (interactive_body_reads o args w) as Hreads.
    rewrite interactive_body_cases in *.
    destruct (fgets_ret o (reads w)) as [line|] eqn:Hline.
    + assert (Hfit : (length (tokens line) < MAX_NUM_CMDS)%nat)
        by (apply (Hshort (reads w)); [lia|exact Hline]).
      destruct (processInput_fits line args Hlen Hfit) as (a & Hrun & Hla & Hargv).
      rewrite Hrun in *.
      destruct (processCommand_parent_safe o a (tokens line) (prompted o w) Hp Hargv)
        as [[w2 Hcmd]|[_ Hcmd]]; [lia| |].
      * rewrite Hcmd in *. simpl in Hreads. apply IH; [exact Hla|].
        intros k l Hk. apply Hshort. lia.
      * rewrite Hcmd. right. eexists. reflexivity.
    + simpl in Hreads. apply IH; [exact Hlen|].
      intros k l Hk. apply Hshort. unfold prompted in Hk. simpl in Hk. lia.
Qed.

(** X12. With lines of fewer than [MAX_NUM_CMDS] tokens the interactive
    shell never stores outside [args] or [commands]: after any number of
    turns the shell process is either still in its loop or has exited with
    status 0. *)
Theorem short_lines_are_safe (o : os) (n : nat) :
  parent o ->
  (forall k line, (k < n)%nat -> fgets_ret o k = Some line ->
     (length (tokens line) < MAX_NUM_CMDS)%nat) ->
  (exists a w', main_interactive o n = Ret a w') \/
  (exists w', main_interactive o n = Halt (Exit 0) w').
Proof.
  intros Hp Hshort. unfold main_interactive.
  apply interactive_loop_safe; [exact Hp|apply uninit_length|].
  intros k line Hk. apply Hshort. simpl in Hk. lia.
Qed.

Lemma short_lines_are_safe_witness :
  (exists a w',
     main_interactive (os_sample (fun _ => Some "ls -l ; pwd")) 2 = Ret a w') \/
  (exists w',
     main_interactive (os_sample (fun _ => Some "ls -l ; pwd")) 2 =
       Halt (Exit 0) w').
Proof.
  apply (short_lines_are_safe (os_sample (fun _ => Some "ls -l ; pwd")) 2).
  - intros n. simpl. discriminate.
  - intros k line _ [= <-]. vm_compute. lia.
Defined.

(** ** Batch mode and the ways out of main *)

Lemma fgets_results_app (t1 t2 : list event) :
  fgets_results (t1 ++ t2) = fgets_results t1 ++ fgets_results t2.
Proof. apply omap_app. Qed.

Lemma fgets_results_command (new : list event) :
  Forall command_event new -> fgets_results new = [].
Proof.
  induction 1 as [|e new He _ IH]; [reflexivity|].
  destruct e; simpl in *; try exact IH. contradiction.
Qed.

Lemma processCommand_fgets (o : os) (args : array) (w : world) :
  fgets_results (trace (final (processCommand o args w))) =
  fgets_results (trace w).
Proof.
  destruct (emits_processCommand o args w) as (new & -> & Hnew).
  rewrite fgets_results_app, (fgets_results_command new Hnew), app_nil_r.
  reflexivity.
Qed.

Lemma internal_errors_command (new : list event) :
  Forall command_event new -> internal_errors new = [].
Proof.
  induction 1 as [|e new He _ IH]; [reflexivity|].
  destruct e; simpl in *; try exact IH. contradiction.
Qed.

(** X9. [processCommand] reads no input and never reaches either of its
    defensive branches: whatever the line and the process, it writes
    neither "Unrecognized command type" nor "Something is terribly wrong"
    (nothing at all with [fprintf(stderr, ...)]). *)
Theorem processCommand_events (o : os) (args : array) (w : world) :
  internal_errors (trace (final (processCommand o args w))) =
    internal_errors (trace w) /\
  fgets_results (trace (final (processCommand o args w))) =
    fgets_results (trace w) /\
  reads (final (processCommand o args w)) = reads w.
Proof.
  split; [|split; [apply processCommand_fgets|apply processCommand_reads]].
  destruct (emits_processCommand o args w) as (new & -> & Hnew).
  unfold internal_errors at 1. rewrite omap_app.
  fold (internal_errors (trace w)). fold (internal_errors new).
  rewrite (internal_errors_command new Hnew), app_nil_r. reflexivity.
Qed.

(** One line of the batch file that is not [quit]: it is read, processed,
    and the loop goes on. *)
Lemma batch_step (o : os) (line : string) (file : list string)
    (args : array) (w : world) :
  parent o -> length args = MAX_NUM_CMDS -> line_ok line ->
  exists (a : array) (w1 : world),
    batch_loop o (line :: file) args w = batch_loop o file a w1 /\
    length a = MAX_NUM_CMDS /\
    fgets_results (trace w1) = fgets_results (trace w) ++ [Some line].
Proof.
  intros Hp Hlen [Hfit Hnq].
  destruct (processInput_fits line args Hlen Hfit) as (a & Hrun & Hla & Hargv).
  cbn [batch_loop]. unfold mbind, M_bind, emit, processInput_m.
  rewrite Hrun. unfold mret, M_ret.
  match goal with |- context [processCommand o a ?w0] => set (w1 := w0) end.
  pose proof (processCommand_fgets o a w1) as Hfg.
  destruct (processCommand_parent_safe o a (tokens line) w1 Hp Hargv)
    as [[w2 Hcmd]|[Hq _]]; [lia| |contradiction].
  rewrite Hcmd in *. exists a, w2. split; [reflexivity|]. split; [exact Hla|].
  simpl in Hfg. rewrite Hfg. unfold w1. cbn [trace].
  rewrite fgets_results_app. reflexivity.
Qed.

Lemma batch_loop_quit (o : os) (pre post : list string) (q : string) :
  parent o -> tokens q = ["quit"] ->
  forall (args : array) (w : world),
  length args = MAX_NUM_CMDS -> Forall line_ok pre ->
  exists w' : world,
    batch_loop o (pre ++ q :: post) args w = Halt (Exit 0) w' /\
    fgets_results (trace w') =
      fgets_results (trace w) ++ (Some <$> pre) ++ [Some q].
Proof.
  intros Hp Hq. induction pre as [|line pre IH]; intros args w Hlen Hok.
  - assert (Hfit : (length (tokens q) < MAX_NUM_CMDS)%nat)
      by (rewrite Hq; unfold MAX_NUM_CMDS; simpl; lia).
    destruct (processInput_fits q args Hlen Hfit) as (a & Hrun & Hla & Hargv).
    simpl app. cbn [batch_loop]. unfold mbind, M_bind, emit, processInput_m.
    rewrite Hrun. unfold mret, M_ret.
    match goal with |- context [processCommand o a ?w0] => set (w1 := w0) end.
    destruct (processCommand_parent_safe o a (tokens q) w1 Hp Hargv)
      as [[w2 Hcmd]|[_ Hcmd]]; [lia| |].
    + exfalso.
      destruct (processCommand_parent_safe o a ["quit"] w1 Hp) as [[w3 H3]|[_ H3]];
        [rewrite <- Hq; exact Hargv|unfold MAX_NUM_CMDS; simpl; lia| |].
      * unfold processCommand in H3. rewrite Hargv, Hq in H3. discriminate.
      * congruence.
    + rewrite Hcmd. eexists. split; [reflexivity|]. unfold w1. cbn [trace].
      rewrite !fgets_results_app. simpl. rewrite app_nil_r. reflexivity.
  - apply Forall_cons in Hok as [Hline Hok].
    change ((line :: pre) ++ q :: post) with (line :: (pre ++ q :: post)).
    destruct (batch_step o line (pre ++ q :: post) args w Hp Hlen Hline)
      as (a & w1 & -> & Hla & Hfg).
    destruct (IH a w1 Hla Hok) as (w' & Hrun & Hfg').
    exists w'. split; [exact Hrun|].
    rewrite Hfg', Hfg, <- app_assoc. reflexivity.
Qed.

Lemma main_batch (o : os) (file : list string) (turns : nat) (w : world) :
  main o 2 (Some file) turns w =
  match batch_loop o file (uninit (args_garbage o)) w with
  | Ret _ w' => Ret (Some 0) w'
  | Halt h w' => Halt h w'
  end.
Proof. reflexivity. Qed.

(** X14. [quit] ends a batch run at once: at the first line that is the
    [quit] command [main] does not return, the process exits with status
    0, and the lines after it are never read. *)
Theorem batch_stops_at_quit
    (o : os) (pre post : list string) (q : string) (turns : nat) :
  parent o -> Forall line_ok pre -> tokens q = ["quit"] ->
  exists w' : world,
    main o 2 (Some (pre ++ q :: post)) turns world0 = Halt (Exit 0) w' /\
    fgets_results (trace w') = Some <$> (pre ++ [q]).
Proof.
  intros Hp Hok Hq. rewrite main_batch.
  destruct (batch_loop_quit o pre post q Hp Hq (uninit (args_garbage o)) world0)
    as (w' & Hrun & Hfg); [apply uninit_length|exact Hok|].
  exists w'. rewrite Hrun. split; [reflexivity|].
  rewrite Hfg, fmap_app. reflexivity.
Qed.

Lemma batch_stops_at_quit_witness :
  exists w' : world,
    main (os_sample (fun _ => None)) 2
      (Some (["ls -l"] ++ " quit " :: ["echo never"])) 0 world0 =
      Halt (Exit 0) w' /\
    fgets_results (trace w') = [Some "ls -l"; Some " quit "].
Proof.
  apply (batch_stops_at_quit (os_sample (fun _ => None))
           ["ls -l"] ["echo never"] " quit " 0).
  - intros n. simpl. discriminate.
  - repeat constructor; try (vm_compute; lia); vm_compute; discriminate.
  - reflexivity.
Defined.

(** X15. A wrong invocation runs nothing: with an argument count other
    than 1 and 2, or with a file that cannot be opened, [main] prints the
    usage line and returns 0; no input is read and no process is created.
    The file is opened only when the argument count is 2. *)
Theorem bad_invocation_prints_usage
    (o : os) (argc : Z) (fopen_ret : option (list string)) (turns : nat) :
  argc <> 1 -> (argc <> 2 \/ fopen_ret = None) ->
  main o argc fopen_ret turns world0 =
    Ret (Some 0) {| forks := 0; reads := 0; trace := [Printf usage_text] |}.
Proof.
  intros H1 H2. unfold main.
  rewrite (proj2 (Z.eqb_neq argc 1) H1).
  destruct H2 as [H2| ->].
  - rewrite (proj2 (Z.eqb_neq argc 2) H2). reflexivity.
  - destruct (argc =? 2); reflexivity.
Qed.

Lemma bad_invocation_prints_usage_witness :
  main (os_sample (fun _ => None)) 3 (Some ["ls"]) 5 world0 =
    Ret (Some 0) {| forks := 0; reads := 0; trace := [Printf usage_text] |} /\
  main (os_sample (fun _ => None)) 2 None 5 world0 =
    Ret (Some 0) {| forks := 0; reads := 0; trace := [Printf usage_text] |}.
Proof.
  split.
  - apply (bad_invocation_prints_usage (os_sample (fun _ => None)) 3 (Some ["ls"]) 5).
    + lia.
    + left. lia.
  - apply (bad_invocation_prints_usage (os_sample (fun _ => None)) 2 None 5).
    + lia.
    + right. reflexivity.
Defined.

Lemma processCommand_quit (o : os) (args : array) (w : world) :
  argv_of args = Some ["quit"] ->
  processCommand o args w =
    Halt (Exit 0) {| forks := forks w; reads := reads w;
                     trace := trace w ++ [Call_executeBuiltinCommand "quit"] |}.
Proof. intros Hargs. unfold processCommand. rewrite Hargs. reflexivity. Qed.

Lemma interactive_loop_quit (o : os) (q : string) (k : nat) :
  parent o -> tokens q = ["quit"] ->
  forall (n : nat) (args : array) (w : world),
  length args = MAX_NUM_CMDS ->
  (forall i line, (reads w <= i < reads w + k)%nat ->
     fgets_ret o i = Some line -> line_ok line) ->
  fgets_ret o (reads w + k) = Some q ->
  (k < n)%nat ->
  exists w' : world,
    interactive_loop o n args w = Halt (Exit 0) w' /\
    reads w' = S (reads w + k) /\
    last (trace w') = Some (Call_executeBuiltinCommand "quit").
Proof.
  intros Hp Hq. induction k as [|k IH]; intros n args w Hlen Hok Hread Hn.
  - destruct n as [|n]; [lia|]. rewrite Nat.add_0_r in Hread.
    assert (Hfit : (length (tokens q) < MAX_NUM_CMDS)%nat)
      by (rewrite Hq; unfold MAX_NUM_CMDS; simpl; lia).
    destruct (processInput_fits q args Hlen Hfit) as (a & Hrun & Hla & Hargv).
    rewrite Hq in Hargv.
    simpl. unfold mbind, M_bind. rewrite interactive_body_cases, Hread, Hrun.
    rewrite (processCommand_quit o a _ Hargv).
    eexists. split; [reflexivity|]. unfold prompted. simpl.
    split; [lia|]. rewrite last_snoc. reflexivity.
  - destruct n as [|n]; [lia|].
    simpl. unfold mbind, M_bind.
    pose proof (interactive_body_reads o args w) as Hreads.
    rewrite interactive_body_cases in *.
    assert (Hnext : forall a w1, length a = MAX_NUM_CMDS -> reads w1 = S (reads w) ->
              exists w' : world,
                interactive_loop o n a w1 = Halt (Exit 0) w' /\
                reads w' = S (reads w + S k) /\
                last (trace w') = Some (Call_executeBuiltinCommand "quit")).
    { intros a w1 Hla Hw1.
      destruct (IH n a w1 Hla) as (w' & Hrun & Hr & Hl).
      - intros i line Hi. apply Hok. lia.
      - rewrite Hw1. rewrite <- Hread. f_equal. lia.
      - lia.
      - exists w'. split; [exact Hrun|]. split; [lia|exact Hl]. }
    destruct (fgets_ret o (reads w)) as [line|] eqn:Hline.
    + destruct (Hok (reads w) line ltac:(lia) Hline) as [Hfit Hnq].
      destruct (processInput_fits line args Hlen Hfit) as (a & Hrun & Hla & Hargv).
      rewrite Hrun in *.
      destruct (processCommand_parent_safe o a (tokens line) (prompted o w) Hp Hargv)
        as [[w2 Hcmd]|[Hquit _]]; [lia| |contradiction].
      rewrite Hcmd in *. simpl in Hreads. apply Hnext; assumption.
    + apply Hnext; [exact Hlen|reflexivity].
Qed.

(** X16. [quit] ends the interactive session at once: when the lines read
    before it fit in [args] and are not [quit] (failed reads are allowed
    among them), the first line that is the [quit] command makes the shell
    process exit with status 0, the built-in being the last thing it does,
    and no later input is read however long the session is followed. *)
Theorem quit_ends_the_session (o : os) (q : string) (k n : nat) :
  parent o ->
  (forall i line, (i < k)%nat -> fgets_ret o i = Some line -> line_ok line) ->
  fgets_ret o k = Some q -> tokens q = ["quit"] -> (k < n)%nat ->
  exists w' : world,
    main_interactive o n = Halt (Exit 0) w' /\
    reads w' = S k /\
    last (trace w') = Some (Call_executeBuiltinCommand "quit").
Proof.
  intros Hp Hok Hread Hq Hn. unfold main_interactive.
  destruct (interactive_loop_quit o q k Hp Hq n (uninit (args_garbage o)) world0)
    as (w' & Hrun & Hr & Hl).
  - apply uninit_length.
  - intros i line Hi. apply Hok. simpl in Hi. lia.
  - exact Hread.
  - exact Hn.
  - exists w'. auto.
Qed.

Lemma quit_ends_the_session_witness :
  exists w' : world,
    main_interactive
      (os_sample (fun i => match i with
                           | 0%nat => Some "ls"
                           | 1%nat => None
                           | _ => Some "quit"
                           end)) 10 = Halt (Exit 0) w' /\
    reads w' = 3%nat /\
    last (trace w') = Some (Call_executeBuiltinCommand "quit").
Proof.
  apply (quit_ends_the_session
           (os_sample (fun i => match i with
                                | 0%nat => Some "ls"
                                | 1%nat => None
                                | _ => Some "quit"
                                end)) "quit" 2 10).
  - intros n. simpl. discriminate.
  - intros i line Hi. destruct i as [|[|i]]; simpl; try lia; try discriminate.
    intros [= <-]. split; [vm_compute; lia|vm_compute; discriminate].
  - reflexivity.
  - reflexivity.
  - lia.
Defined.

(** ** What a turn leaves in args *)

Lemma processInput_loop_tail (fuel : nat) :
  forall (s : string) (args a : array) (j : nat),
  (String.length s <= fuel)%nat ->
  processInput_loop fuel (strtok s) args j = Done a ->
  drop (S (j + length (tokens_loop fuel (strtok s)))) a =
  drop (S (j + length (tokens_loop fuel (strtok s)))) args.
Proof.
  induction fuel as [|fuel IH]; intros s args a j Hfuel.
  - assert (s = EmptyString) as -> by (destruct s; [reflexivity|simpl in Hfuel; lia]).
    rewrite strtok_empty. cbn [processInput_loop tokens_loop length].
    destruct (store args j None) as [a'|] eqn:Es; [|discriminate].
    apply store_Some in Es as [_ ->]. intros [= <-].
    apply drop_insert_lt. lia.
  - destruct (strtok s) as [[t rest]|] eqn:Etok.
    + apply strtok_shorter in Etok.
      cbn [processInput_loop tokens_loop length].
      destruct (store args j (Some t)) as [a'|] eqn:Es; [|discriminate].
      apply store_Some in Es as [_ ->]. intros Hrun.
      apply IH in Hrun; [|lia].
      replace (S (j + S (length (tokens_loop fuel (strtok rest)))))
        with (S (S j + length (tokens_loop fuel (strtok rest)))) by lia.
      rewrite Hrun. apply drop_insert_lt. lia.
    + cbn [processInput_loop tokens_loop length].
      destruct (store args j None) as [a'|] eqn:Es; [|discriminate].
      apply store_Some in Es as [_ ->]. intros [= <-].
      apply drop_insert_lt. lia.
Qed.

(** X17. [processInput] overwrites [args] in place and only as far as it
    needs: after a successful call the array has the same length, holds
    the tokens of the line and their terminator at its start, and
    everything after the terminator is what the array held before (the
    tokens of an earlier, longer line stay there). *)
Theorem processInput_writes_prefix (line : string) (args a : array) :
  processInput line args = Done a ->
  length a = length args /\
  take (S (length (tokens line))) a = (Some <$> tokens line) ++ [None] /\
  drop (S (length (tokens line))) a = drop (S (length (tokens line))) args.
Proof.
  intros Hrun. pose proof (processInput_Done line args a Hrun) as [Hargv Hlen].
  split; [exact Hlen|]. split.
  - clear Hrun Hlen. revert a Hargv. generalize (tokens line) as ts.
    induction ts as [|t ts IH]; intros a Hargv.
    + destruct a as [|[x|] a]; simpl in Hargv; try discriminate.
      * destruct (argv_of a); discriminate.
      * reflexivity.
    + destruct a as [|[x|] a]; simpl in Hargv; try discriminate.
      destruct (argv_of a) as [l|] eqn:E; simpl in Hargv; [|discriminate].
      injection Hargv as -> ->. simpl. f_equal. apply IH. exact E.
  - unfold processInput, tokens in *.
    apply (processInput_loop_tail (String.length line) line args a 0%nat);
      [lia|exact Hrun].
Qed.

Lemma processInput_writes_prefix_witness :
  processInput "x" (args_of ["a"; "b"; "c"]) =
    Done (<[0%nat := Some "x"]> (<[1%nat := None]> (args_of ["a"; "b"; "c"]))) /\
  take (S (length (tokens "x")))
    (<[0%nat := Some "x"]> (<[1%nat := None]> (args_of ["a"; "b"; "c"]))) =
    (Some <$> tokens "x") ++ [None] /\
  drop (S (length (tokens "x")))
    (<[0%nat := Some "x"]> (<[1%nat := None]> (args_of ["a"; "b"; "c"]))) =
    drop (S (length (tokens "x"))) (args_of ["a"; "b"; "c"]).
Proof.
  assert (Hrun : processInput "x" (args_of ["a"; "b"; "c"]) =
                 Done (<[0%nat := Some "x"]> (<[1%nat := None]> (args_of ["a"; "b"; "c"]))))
    by (vm_compute; reflexivity).
  split; [exact Hrun|].
  apply (processInput_writes_prefix "x" (args_of ["a"; "b"; "c"]) _ Hrun).
Defined.

(** X18. One turn on a simple command, end to end: when the line read has
    fewer than [MAX_NUM_CMDS] tokens, no [;], no [&&] and is not a lone
    built-in name, the shell process runs [executeCommand] exactly once,
    with an argument vector that is the token sequence of the line, and
    goes back to the prompt. *)
Theorem simple_line_turn
    (o : os) (args : array) (w : world) (line : string) :
  parent o -> length args = MAX_NUM_CMDS ->
  fgets_ret o (reads w) = Some line ->
  (length (tokens line) < MAX_NUM_CMDS)%nat ->
  tokens line <> [] -> ";" ∉ tokens line -> "&&" ∉ tokens line ->
  ~ (tokens line = ["quit"] \/ tokens line = ["author"]) ->
  exists a : array,
    argv_of a = Some (tokens line) /\
    interactive_body o args w =
      Ret a {| forks := S (forks w); reads := S (reads w);
               trace := trace w ++
                 [Printf "myshell> "; Fgets (Some line);
                  Call_executeCommand a; Fork (fork_ret o (forks w));
                  parent_tail (fork_ret o (forks w))] |}.
Proof.
  intros Hp Hlen Hread Hfit Hne Hs Ha Hnb.
  destruct (processInput_fits line args Hlen Hfit) as (a & Hrun & _ & Hargv).
  exists a. split; [exact Hargv|].
  rewrite interactive_body_cases, Hread, Hrun.
  rewrite (simple_command_runs_once_aux o a (tokens line) (prompted o w))
    by assumption.
  unfold prompted. rewrite Hread. simpl. rewrite <- app_assoc. reflexivity.
Qed.

Lemma simple_line_turn_witness :
  exists a : array,
    argv_of a = Some (tokens "ls -l") /\
    interactive_body (os_sample (fun _ => Some "ls -l")) (args_of []) world0 =
      Ret a {| forks := 1; reads := 1;
               trace := [Printf "myshell> "; Fgets (Some "ls -l");
                         Call_executeCommand a; Fork 7; Wait] |}.
Proof.
  apply (simple_line_turn (os_sample (fun _ => Some "ls -l")) (args_of []) world0 "ls -l").
  - intros n. simpl. discriminate.
  - reflexivity.
  - reflexivity.
  - vm_compute. lia.
  - vm_compute. discriminate.
  - change (tokens "ls -l") with ["ls"; "-l"].
    rewrite !not_elem_of_cons. repeat split; try discriminate. apply not_elem_of_nil.
  - change (tokens "ls -l") with ["ls"; "-l"].
    rewrite !not_elem_of_cons. repeat split; try discriminate. apply not_elem_of_nil.
  - change (tokens "ls -l") with ["ls"; "-l"]. intros [H|H]; discriminate.
Defined.

(** ** The built-ins *)

(** X19. A built-in runs inside the shell: on the one-token line [author]
    [processCommand] prints the two lines of the author block between
    blank lines and returns, on the one-token line [quit] it exits with
    status 0; neither creates a process nor calls the executor. *)
Theorem builtins_run_in_the_shell (o : os) (args : array) (w : world) :
  (argv_of args = Some ["author"] ->
   processCommand o args w =
     Ret tt {| forks := forks w; reads := reads w;
               trace := trace w ++
                 [Call_executeBuiltinCommand "author";
                  Printf (nl ++ "giannis-mel" ++ nl ++
                          "meleziadisgiannis@gmail.com" ++ nl ++ nl)%string] |}) /\
  (argv_of args = Some ["quit"] ->
   processCommand o args w =
     Halt (Exit 0) {| forks := forks w; reads := reads w;
                      trace := trace w ++ [Call_executeBuiltinCommand "quit"] |}) /\
  (forall toks, argv_of args = Some toks ->
     toks = ["quit"] \/ toks = ["author"] ->
     forks (final (processCommand o args w)) = forks w /\
     invocations (trace (final (processCommand o args w))) =
       invocations (trace w)).
Proof.
  assert (Hauthor : argv_of args = Some ["author"] ->
    processCommand o args w =
     Ret tt {| forks := forks w; reads := reads w;
               trace := trace w ++
                 [Call_executeBuiltinCommand "author"; Printf author_text] |}).
  { intros Hargs. unfold processCommand. rewrite Hargs.
    change (executeBuiltinCommand "author" w = Ret tt
              {| forks := forks w; reads := reads w;
                 trace := trace w ++
                   [Call_executeBuiltinCommand "author"; Printf author_text] |}).
    rewrite executeBuiltinCommand_cases. simpl. rewrite <- app_assoc. reflexivity. }
  split; [exact Hauthor|]. split; [apply processCommand_quit|].
  intros toks Hargs [-> | ->].
  - rewrite (processCommand_quit o args w Hargs). simpl.
    rewrite invocations_app. simpl. rewrite app_nil_r. auto.
  - rewrite (Hauthor Hargs). simpl.
    rewrite invocations_app. simpl. rewrite app_nil_r. auto.
Qed.

Lemma builtins_run_in_the_shell_witness :
  processCommand (os_sample (fun _ => None)) (args_of ["author"]) world0 =
    Ret tt {| forks := 0; reads := 0;
              trace := [Call_executeBuiltinCommand "author";
                        Printf (nl ++ "giannis-mel" ++ nl ++
                                "meleziadisgiannis@gmail.com" ++ nl ++ nl)%string] |}.
Proof.
  destruct (builtins_run_in_the_shell (os_sample (fun _ => None))
              (args_of ["author"]) world0) as (Hauthor & _).
  apply Hauthor. reflexivity.
Defined.

(** ** Every group is launched *)

Lemma loop_parent_run (o : os) (d : token) (args : list token) :
  parent o ->
  forall (c : array) (j : nat) (w : world),
  (j + length args <= length c)%nat ->
  handleMultipleCommands_loop o args d c j w =
    Ret tt {| forks := forks w + length (loop_calls args d c j);
              reads := reads w;
              trace := trace w ++ launches o (forks w) (loop_calls args d c j) |}.
Proof.
  intros Hp. induction args as [|a rest IH]; intros c j w Hb.
  - simpl. unfold mret, M_ret. rewrite app_nil_r, Nat.add_0_r.
    destruct w; reflexivity.
  - rewrite loop_cons, loop_calls_cons. simpl in Hb.
    unfold mbind, M_bind, store_m, store.
    destruct ((strcmp a d =? 0) || is_null rest).
    + rewrite decide_True by lia. unfold mret, M_ret.
      rewrite executeCommand_parent by apply Hp.
      rewrite IH by (rewrite length_insert; lia).
      cbn [forks reads trace launches length].
      rewrite <- app_assoc. do 2 f_equal. lia.
    + rewrite decide_True by lia. unfold mret, M_ret.
      apply IH. rewrite length_insert. lia.
Qed.

(** The splitter in the shell process, on a line [body ++ [z]] of at most
    [MAX_NUM_CMDS] tokens: it returns, having launched one child per piece
    of [body] cut at the delimiter, in order; every launch but the last
    has exactly its piece as argument vector, and the array of the last
    starts with the last piece followed by [z]. *)
Lemma handleMultipleCommands_run
    (o : os) (d z : token) (body : list token) (w : world) :
  parent o -> (length body < MAX_NUM_CMDS)%nat ->
  exists (calls : list array) (a : array) (gs : list (list token)) (g : list token),
    handleMultipleCommands o (body ++ [z]) d w =
      Ret tt {| forks := forks w + S (length calls); reads := reads w;
                trace := trace w ++ launches o (forks w) (calls ++ [a]) |} /\
    split_on d [] body = gs ++ [g] /\
    argv_of <$> calls = Some <$> gs /\
    take (S (length g)) a = Some <$> (g ++ [z]).
Proof.
  intros Hp Hlen. unfold handleMultipleCommands.
  destruct (loop_calls_groups d z body (uninit (commands_garbage o (forks w))) [])
    as (calls & a & gs & g & Hcalls & Hsplit & Hexact & Hlast).
  - rewrite uninit_length. simpl. lia.
  - reflexivity.
  - exists calls, a, gs, g. simpl length in Hcalls.
    rewrite loop_parent_run;
      [|exact Hp|rewrite uninit_length, length_app; simpl; lia].
    rewrite Hcalls, length_app. simpl.
    repeat split; try assumption. do 2 f_equal. lia.
Qed.


Lemma getCommandType_traced_fst (args : list token) :
  fst (getCommandType_traced args) = getCommandType args.
Proof.
  destruct args as [|a0 [|a1 rest]]; try reflexivity.
Qed.

Lemma snoc_of_nonempty {A} (l : list A) :
  l <> [] -> exists (body : list A) (z : A), l = body ++ [z].
Proof.
  intros Hne. destruct (exists_last Hne) as (body & z & ->). eauto.
Qed.

(** C6, as amended. On a line that contains [&&], contains no [;] and does
    not end with [&&], [processCommand] does exactly what it does on the
    line with every [&&] replaced by [;]: the first is classified
    [ConditionalGroup], the second [SequentialGroup], both go through
    [handleMultipleCommands], and the two runs are equal.  Every group is
    executed, whatever happened to the groups before it: in the shell
    process, whatever the results of its forks, the run on a line of at
    most [MAX_NUM_CMDS] tokens returns after one launch (call of
    [executeCommand], fork, wait or report) per group of the line cut at
    [&&], in order; every launch but the last has exactly its group as
    argument vector, and the array of the last starts with the last
    group. *)
Theorem conditional_runs_as_sequential
    (o : os) (args args' : array) (toks : list token) (w : world) :
  argv_of args = Some toks ->
  argv_of args' = Some (replace_conditional toks) ->
  "&&" ∈ toks -> ";" ∉ toks -> last toks <> Some "&&" ->
  classify toks = Some ConditionalGroup /\
  classify (replace_conditional toks) = Some SequentialGroup /\
  processCommand o args w = handleMultipleCommands o toks "&&" w /\
  processCommand o args' w =
    handleMultipleCommands o (replace_conditional toks) ";" w /\
  processCommand o args w = processCommand o args' w /\
  (parent o -> (length toks <= MAX_NUM_CMDS)%nat ->
   exists (calls : list array) (a : array) (gs : list (list token)) (g : list token),
     processCommand o args w =
       Ret tt {| forks := forks w + S (length calls); reads := reads w;
                 trace := trace w ++ launches o (forks w) (calls ++ [a]) |} /\
     split_on "&&" [] toks = gs ++ [g] /\
     argv_of <$> calls = Some <$> gs /\
     take (length g) a = Some <$> g).
Proof.
  intros Hargs Hargs' Ha Hs Hlast.
  destruct (getCommandType_conditional toks Ha Hs Hlast) as [H3 H2].
  assert (E : processCommand o args w = handleMultipleCommands o toks "&&" w).
  { unfold processCommand. rewrite Hargs, H3. reflexivity. }
  assert (E' : processCommand o args' w =
               handleMultipleCommands o (replace_conditional toks) ";" w).
  { unfold processCommand. rewrite Hargs', H2. reflexivity. }
  unfold classify. rewrite H3, H2.
  split; [reflexivity|]. split; [reflexivity|].
  split; [exact E|]. split; [exact E'|]. split.
  - rewrite E, E'. unfold handleMultipleCommands.
    apply loop_replace; assumption.
  - intros Hp Hlen. rewrite E.
    destruct (snoc_of_nonempty toks) as (body & z & ->).
    { intros ->. apply elem_of_nil in Ha. contradiction. }
    rewrite last_snoc in Hlast.
    rewrite length_app in Hlen. simpl in Hlen.
    destruct (handleMultipleCommands_run o "&&" z body w Hp)
      as (calls & a & gs & g & Hrun & Hsplit & Hexact & Htake); [lia|].
    exists calls, a, gs, (g ++ [z]). split; [exact Hrun|]. split.
    + apply split_on_snoc; [congruence|exact Hsplit].
    + split; [exact Hexact|]. rewrite length_app. simpl.
      rewrite Nat.add_1_r. exact Htake.
Qed.

Lemma conditional_runs_as_sequential_witness :
  processCommand (os_sample (fun _ => None))
    (args_of ["echo"; "a"; "&&"; "echo"; "b"]) world0 =
  processCommand (os_sample (fun _ => None))
    (args_of ["echo"; "a"; ";"; "echo"; "b"]) world0 /\
  exists (calls : list array) (a : array),
    processCommand (os_sample (fun _ => None))
      (args_of ["echo"; "a"; "&&"; "echo"; "b"]) world0 =
      Ret tt {| forks := 0 + S (length calls); reads := 0;
                trace := [] ++ launches (os_sample (fun _ => None)) 0 (calls ++ [a]) |} /\
    argv_of <$> calls = [Some ["echo"; "a"]] /\
    take 2 a = [Some "echo"; Some "b"].
Proof.
  destruct (conditional_runs_as_sequential (os_sample (fun _ => None))
              (args_of ["echo"; "a"; "&&"; "echo"; "b"])
              (args_of ["echo"; "a"; ";"; "echo"; "b"])
              ["echo"; "a"; "&&"; "echo"; "b"] world0)
    as (_ & _ & _ & _ & Hsame & Hrun).
  - reflexivity.
  - reflexivity.
  - apply elem_of_cons. right. apply elem_of_cons. right.
    apply elem_of_cons. left. reflexivity.
  - rewrite !not_elem_of_cons. repeat split; try discriminate.
    apply not_elem_of_nil.
  - simpl. discriminate.
  - split; [exact Hsame|].
    destruct Hrun as (calls & a & gs & g & Hrun & Hsplit & Hexact & Htake).
    + intros n. simpl. discriminate.
    + simpl. unfold MAX_NUM_CMDS. lia.
    + change (split_on "&&" [] ["echo"; "a"; "&&"; "echo"; "b"])
        with ([["echo"; "a"]] ++ [["echo"; "b"]]) in Hsplit.
      apply app_inj_tail in Hsplit as [<- <-].
      exists calls, a. split; [exact Hrun|]. split; [exact Hexact|exact Htake].
Defined.




(** ** The batch file under a failed exec *)

Lemma string_length_app (s1 s2 : string) :
  String.length (s1 ++ s2)%string = (String.length s1 + String.length s2)%nat.
Proof. induction s1 as [|c s1 IH]; simpl; [reflexivity|]. rewrite IH. reflexivity. Qed.

Lemma line_of_long (n : nat) :
  forall s : string, (n <= String.length s)%nat -> line_of n s <> None.
Proof.
  induction n as [|n IH]; intros s Hlen; simpl; [discriminate|].
  destruct s as [|c r]; [simpl in Hlen; lia|].
  destruct (Ascii.eqb c (ascii_of_nat 10)); [discriminate|].
  specialize (IH r ltac:(simpl in Hlen; lia)).
  destruct (line_of n r) as [[l rest]|]; [discriminate|congruence].
Qed.

(** [fgets] on the stream always comes to a result: [MAX_CMD_LENGTH]
    refills are enough fuel. *)
Lemma fgets_file_fuel (bufsiz fuel : nat) :
  forall f : shared_file,
  (pred MAX_CMD_LENGTH <= fuel + String.length (unread f))%nat ->
  fgets_file fuel bufsiz f <> None.
Proof.
  induction fuel as [|fuel IH]; intros f Hlen.
  - pose proof (line_of_long (pred MAX_CMD_LENGTH) (unread f) ltac:(lia)) as H.
    cbn [fgets_file].
    destruct (line_of (Init.Nat.pred MAX_CMD_LENGTH) (unread f)) as [[l rest]|];
      [discriminate|congruence].
  - cbn [fgets_file].
    destruct (line_of (Init.Nat.pred MAX_CMD_LENGTH) (unread f)) as [[l rest]|];
      [discriminate|].
    unfold read_fd.
    destruct (substring (offset f) bufsiz (content f)) as [|c chunk] eqn:E;
      [discriminate|].
    apply IH. cbn [unread]. rewrite string_length_app.
    cbn [String.length]. lia.
Qed.

Lemma substring_cap (s : string) :
  forall n m : nat,
  (String.length s <= m)%nat ->
  substring n m s = substring n (String.length s) s.
Proof.
  induction s as [|c s IH]; intros n m Hlen.
  - destruct n, m; reflexivity.
  - destruct n as [|n].
    + destruct m as [|m]; [simpl in Hlen; lia|]. simpl.
      f_equal. apply IH. simpl in Hlen. lia.
    + simpl. rewrite (IH n m) by (simpl in Hlen; lia).
      rewrite (IH n (S (String.length s))) by lia. reflexivity.
Qed.

Lemma fgets_file_cap (bufsiz fuel : nat) :
  forall f : shared_file,
  (String.length (content f) <= bufsiz)%nat ->
  fgets_file fuel bufsiz f = fgets_file fuel (String.length (content f)) f.
Proof.
  induction fuel as [|fuel IH]; intros f Hlen; [reflexivity|].
  cbn [fgets_file].
  destruct (line_of (Init.Nat.pred MAX_CMD_LENGTH) (unread f)) as [[l rest]|];
    [reflexivity|].
  unfold read_fd. rewrite (substring_cap (content f) (offset f) bufsiz Hlen).
  destruct (substring (offset f) (String.length (content f)) (content f));
    [reflexivity|].
  apply (IH {| content := content f;
               offset := offset f + String.length (String a s);
               unread := (unread f ++ String a s)%string |}).
  exact Hlen.
Qed.

Lemma fgets_file_content (bufsiz fuel : nat) :
  forall (f f1 : shared_file) (r : option string),
  fgets_file fuel bufsiz f = Some (r, f1) -> content f1 = content f.
Proof.
  induction fuel as [|fuel IH]; intros f f1 r; cbn [fgets_file];
    destruct (line_of (Init.Nat.pred MAX_CMD_LENGTH) (unread f)) as [[l rest]|];
    try discriminate; try (intros [= _ <-]; reflexivity).
  unfold read_fd.
  destruct (substring (offset f) bufsiz (content f));
    [intros [= _ <-]; reflexivity|].
  intros H. apply IH in H. exact H.
Qed.

Lemma children_exit_content (o : os) (calls : list array) :
  forall (n : nat) (f : shared_file),
  content (children_exit o n calls f) = content f.
Proof.
  induction calls as [|args calls IH]; intros n f; [reflexivity|].
  cbn [children_exit]. rewrite IH.
  destruct (0 <? fork_ret o n); [|reflexivity].
  destruct (default None (args !! 0%nat)); [|reflexivity].
  destruct (execvp_ret o n) as [r|]; [|reflexivity].
  destruct (r =? -1); [|reflexivity].
  unfold child_exit.
  destruct (Nat.leb (String.length (unread f)) (offset f)); reflexivity.
Qed.

(** A buffer larger than the file reads the file as one of its size. *)
Lemma batch_shared_cap (o : os) (bufsiz turns : nat) :
  forall (f : shared_file) (args : array) (w : world),
  (String.length (content f) <= bufsiz)%nat ->
  batch_shared o turns bufsiz f args w =
  batch_shared o turns (String.length (content f)) f args w.
Proof.
  induction turns as [|turns IH]; intros f args w Hlen; [reflexivity|].
  cbn [batch_shared]. rewrite (fgets_file_cap bufsiz MAX_CMD_LENGTH f Hlen).
  destruct (fgets_file MAX_CMD_LENGTH (String.length (content f)) f)
    as [[r f1]|] eqn:E; [|reflexivity].
  apply fgets_file_content in E.
  unfold mbind, M_bind, emit, forks_now, calls_now.
  destruct r as [line|]; [|reflexivity].
  destruct (processInput_m line args _) as [a w1|h w1]; [|reflexivity].
  destruct (processCommand o a w1) as [[] w2|h w2]; [|reflexivity].
  rewrite IH by (rewrite children_exit_content, E; exact Hlen).
  rewrite children_exit_content, E. reflexivity.
Qed.

(** C7. A failed [execvp] reaches the shell through the batch file.  Take
    the two-line file [prog], [echo hi], a stream buffer that holds it, and
    two environments that give the shell the same thing at every fork and
    differ only in whether the first child finds [prog].  When it does,
    the shell reads two lines and the end of the file, makes two launches
    and [main] returns 0.  When it does not, the child reports the failure
    and leaves through [exit(EXIT_FAILURE)], which seeks the shared
    descriptor back to the end of the first line; the shell, having run
    [echo hi] from its buffer, reads [echo hi] a second time and runs it
    again before [main] returns 0. *)
Theorem failed_exec_rewinds_batch_file (bufsiz : nat) :
  (String.length two_lines <= bufsiz)%nat ->
  (forall n, fork_ret (os_children (fun n => negb (Nat.eqb n 0))) n =
             fork_ret (os_children (fun _ => true)) n) /\
  (exists w : world,
     batch_run (os_children (fun _ => true)) 5 bufsiz two_lines =
       Ret (Some 0) w /\
     fgets_results (trace w) =
       [Some ("prog" ++ nl)%string; Some ("echo hi" ++ nl)%string; None] /\
     argv_of <$> invocations (trace w) =
       [Some ["prog"]; Some ["echo"; "hi"]]) /\
  (exists w : world,
     batch_run (os_children (fun n => negb (Nat.eqb n 0))) 5 bufsiz two_lines =
       Ret (Some 0) w /\
     fgets_results (trace w) =
       [Some ("prog" ++ nl)%string; Some ("echo hi" ++ nl)%string;
        Some ("echo hi" ++ nl)%string; None] /\
     argv_of <$> invocations (trace w) =
       [Some ["prog"]; Some ["echo"; "hi"]; Some ["echo"; "hi"]]).
Proof.
  intros Hlen. split; [reflexivity|]. unfold batch_run.
  split; rewrite batch_shared_cap by exact Hlen; cbn [content];
    eexists; (split; [vm_compute; reflexivity|]);
    split; vm_compute; reflexivity.
Qed.

Lemma failed_exec_rewinds_batch_file_witness :
  (String.length two_lines <= 4096)%nat /\
  exists w : world,
    batch_run (os_children (fun n => negb (Nat.eqb n 0))) 5 4096 two_lines =
      Ret (Some 0) w /\
    fgets_results (trace w) =
      [Some ("prog" ++ nl)%string; Some ("echo hi" ++ nl)%string;
       Some ("echo hi" ++ nl)%string; None] /\
    argv_of <$> invocations (trace w) =
      [Some ["prog"]; Some ["echo"; "hi"]; Some ["echo"; "hi"]].
Proof.
  assert (Hlen : (String.length two_lines <= 4096)%nat)
    by (apply Nat.leb_le; reflexivity).
  split; [exact Hlen|].
  destruct (failed_exec_rewinds_batch_file 4096 Hlen) as (_ & _ & Hfail).
  exact Hfail.
Defined.

(** ** The batch file when every program is found *)


Lemma string_app_nil_r (a : string) : (a ++ "")%string = a.
Proof. induction a as [|x a IH]; simpl; [reflexivity|]. rewrite IH. reflexivity. Qed.





Lemma has_newline_app (a b : string) :
  has_newline (a ++ b) = has_newline a || has_newline b.
Proof.
  induction a as [|c a IH]; simpl; [reflexivity|].
  rewrite IH, orb_assoc. reflexivity.
Qed.









